(** * Sigma schedules of [modules/sd_schedulers.py]

    A shallow embedding of the schedule generators and of the scheduler
    registry, followed by the properties established about them.

    Numeric model.  Python floats, numpy arrays and torch tensors of floats
    are idealised as real numbers and lists of real numbers: rounding,
    [nan] and the infinities are not represented, [.to(device)] and
    [torch.FloatTensor] are the identity.  "Equal within floating
    tolerance" therefore reads as equality of reals.  The generators are
    meant for [0 < sigma_min < sigma_max]; for other bounds, outside the
    domain of [log] and of [**], the model still returns a number, of no
    meaning.

    Exceptions are explicit: code that can raise for some step count,
    configured option or table returns a [result]. *)

From stdpp Require Import gmap strings list sorting.
From Stdlib Require Import Reals Lra Lia ZArith Ascii.

(** ** Exceptions *)

Inductive exn : Set :=
  | ValueError
  | IndexError
  | ZeroDivisionError
  | TypeError.

Inductive result (A : Type) : Type :=
  | Ok (a : A)
  | Raise (e : exn).

Arguments Ok {A} a.
Arguments Raise {A} e.

Definition bind {A B : Type} (r : result A) (k : A -> result B) : result B :=
  match r with
  | Ok a => k a
  | Raise e => Raise e
  end.

Notation "'let!' x ':=' e 'in' k" := (bind e (fun x => k))
  (at level 10, x name, e at level 200, k at level 200).

(** [try: body except Exception: handler] *)
Definition try_except {A : Type} (body : result A) (handler : exn -> result A)
  : result A :=
  match body with
  | Ok a => Ok a
  | Raise e => handler e
  end.

Fixpoint mapM {A B : Type} (f : A -> result B) (l : list A) : result (list B) :=
  match l with
  | [] => Ok []
  | a :: l' => let! b := f a in let! bs := mapM f l' in Ok (b :: bs)
  end.

(** ** Python and numpy primitives on floats *)

Module Py.

Local Open Scope R_scope.

(** [x ** y] on floats, for [0 <= x] (and [0 <= y] when [x = 0]). *)
Definition pow (x y : R) : R :=
  if Rlt_dec 0 x then Rpower x y
  else if Req_dec_T y 0 then 1 else 0.

(** [x ** y] on Python floats, with all its outcomes: a float; a complex
    number, for a negative base with an exponent that is not an integer;
    [ZeroDivisionError], for a zero base with a negative exponent. *)
Inductive pow_result : Type :=
  | PowFloat (v : R)
  | PowComplex
  | PowZeroDivision.

Definition float_pow (x y : R) : pow_result :=
  if Rlt_dec 0 x then PowFloat (Rpower x y)
  else if Rlt_dec x 0 then
    if Req_dec_T (IZR (Int_part y)) y then PowFloat (powerRZ x (Int_part y))
    else PowComplex
  else if Rlt_dec 0 y then PowFloat 0
  else if Rlt_dec y 0 then PowZeroDivision
  else PowFloat 1.

(** [int(r)]: truncation towards zero. *)
Definition int (r : R) : Z :=
  if Rle_dec 0 r then Int_part r else (- Int_part (- r))%Z.

Definition sign (x : R) : R :=
  if Rlt_dec 0 x then 1 else if Rlt_dec x 0 then -1 else 0.

(** [torch.clamp(x, min=lo, max=hi)] *)
Definition clamp (lo hi x : R) : R := Rmin (Rmax x lo) hi.

(** [l[i]] with Python's negative indices. *)
Definition index (l : list R) (i : Z) : result R :=
  let len := Z.of_nat (length l) in
  let j := if (i <? 0)%Z then (i + len)%Z else i in
  if ((0 <=? j) && (j <? len))%Z then
    match nth_error l (Z.to_nat j) with
    | Some x => Ok x
    | None => Raise IndexError
    end
  else Raise IndexError.

(** [s.strip(chars)], [s.split(sep)] on ASCII strings. *)
Fixpoint lstrip (p : ascii -> bool) (s : string) : string :=
  match s with
  | String c s' => if p c then lstrip p s' else s
  | EmptyString => EmptyString
  end.

Definition string_rev (s : string) : string :=
  String.string_of_list_ascii (rev (String.list_ascii_of_string s)).

Definition strip (p : ascii -> bool) (s : string) : string :=
  string_rev (lstrip p (string_rev (lstrip p s))).

Fixpoint split (sep : ascii) (s : string) : list string :=
  match s with
  | EmptyString => [EmptyString]
  | String c s' =>
      if Ascii.eqb c sep then EmptyString :: split sep s'
      else match split sep s' with
           | w :: ws => String c w :: ws
           | [] => [String c EmptyString]
           end
  end.

Definition is_bracket (c : ascii) : bool :=
  (Ascii.eqb c "[" || Ascii.eqb c "]")%char.

Definition is_space (c : ascii) : bool :=
  let k := nat_of_ascii c in
  ((9 <=? k) && (k <=? 13) || (28 <=? k) && (k <=? 32))%nat.

End Py.

Module Np.

Local Open Scope R_scope.

(** [np.linspace(a, b, n)] and [torch.linspace(a, b, n)] *)
Definition linspace (a b : R) (n : nat) : list R :=
  match n with
  | O => []
  | S O => [a]
  | _ => map (fun i => a + INR i * ((b - a) / INR (n - 1))) (seq 0 n)
  end.

(** [np.linspace(a, b, n, endpoint=False)] *)
Definition linspace_open (a b : R) (n : nat) : list R :=
  map (fun i => a + INR i * ((b - a) / INR n)) (seq 0 n).

(** [np.rint]: round half to even; the integral float is kept as an
    integer. *)
Definition rint (r : R) : Z :=
  let f := Int_part r in
  let d := frac_part r in
  if Rlt_dec d (1 / 2) then f
  else if Rlt_dec (1 / 2) d then (f + 1)%Z
  else if Z.even f then f else (f + 1)%Z.

(** [np.interp] at one point, for increasing [xp]: the segment
    [xp[j] <= x < xp[j+1]] is found by a scan, the value at a knot is the
    knot's, the value past the last knot is the last one's. *)
Fixpoint interp_scan (x : R) (xp fp : list R) : R :=
  match xp, fp with
  | x0 :: ((x1 :: _) as xp'), y0 :: ((y1 :: _) as fp') =>
      if Rlt_dec x x1 then
        if Req_dec_T x x0 then y0
        else (y1 - y0) / (x1 - x0) * (x - x0) + y0
      else interp_scan x xp' fp'
  | _, y0 :: _ => y0
  | _, [] => 0
  end.

Definition interp_at (xp fp : list R) (x : R) : R :=
  if Rlt_dec x (hd 0 xp) then hd 0 fp
  else if Rlt_dec (List.last xp 0) x then List.last fp 0
  else interp_scan x xp fp.

(** [np.interp(xs, xp, fp)]; an empty [xp], or [fp] of another length,
    is a [ValueError]. *)
Definition interp (xs xp fp : list R) : result (list R) :=
  match xp with
  | [] => Raise ValueError
  | _ => if (length xp =? length fp)%nat
         then Ok (map (interp_at xp fp) xs)
         else Raise ValueError
  end.

End Np.

(** ** The ambient state: options, the loaded model, the wrapped model *)

(** [shared.opts], the options the generators read. *)
Record Opts : Type := {
  karras_rho : R;
  exponential_shrink_factor : R;
  polyexponential_rho : R;
  sinusoidal_sf_factor : R;
  invcosinusoidal_sf_factor : R;
  react_cosinusoidal_dynsf_factor : R;
  ays_custom_sigmas : string;
  beta_dist_alpha : R;
  beta_dist_beta : R;
  cosine_sf_factor : R;
  cosexpblend_exp_decay : R;
  phi_power : R;
  laplace_mu : R;
  laplace_beta : R;
  karras_dynamic_rho : R
}.

(** [shared]: the options and [shared.sd_model.is_sdxl]. *)
Record Shared : Type := {
  opts : Opts;
  is_sdxl : bool
}.

(** The [inner_model] handed to the generators that need it. *)
Record InnerModel : Type := {
  sigma_to_t : R -> R;
  t_to_sigma : R -> R;
  sigmas : list R;
  get_sigmas : nat -> list R;
  (** [inner_model.inner_model.forge_objects.unet.model.model_sampling.sigma] *)
  model_sampling_sigma : Z -> R
}.

(** ** The [sampling] module of k-diffusion *)

Module Sampling.

Local Open Scope R_scope.

(** Modelled from the spec: [append_zero] of the k-diffusion [sampling]
    module, which is not among the sources; the spec has every generator
    append the terminal value [0.0]. *)
Definition append_zero (x : list R) : list R := x ++ [0].

(** Modelled from the spec: [sampling.get_sigmas_karras], not among the
    sources; the spec gives
    [(max^(1/rho) + t*(min^(1/rho) - max^(1/rho)))^rho] over a ramp [t]
    of length [n] in [0,1], then the terminator.  The formula is for a
    non-zero [rho]. *)
Definition get_sigmas_karras (n : nat) (sigma_min sigma_max rho : R) : list R :=
  let ramp := Np.linspace 0 1 n in
  let min_inv_rho := Py.pow sigma_min (1 / rho) in
  let max_inv_rho := Py.pow sigma_max (1 / rho) in
  append_zero
    (map (fun t => Py.pow (max_inv_rho + t * (min_inv_rho - max_inv_rho)) rho)
         ramp).

(** Modelled from the spec: [sampling.get_sigmas_exponential], not among
    the sources; the spec's row for the exponential schedule gives a
    log-linear interpolation between [sigma_max] and [sigma_min] over [n]
    points, then multiplied by [exp (shrink * linspace 0 1 n)], with the
    shrink factor of the configuration, then the terminator. *)
Definition get_sigmas_exponential (n : nat) (sigma_min sigma_max shrink : R)
  : list R :=
  let sigmas := map exp (Np.linspace (ln sigma_max) (ln sigma_min) n) in
  let sigmas :=
    zip_with Rmult sigmas
      (map (fun t => exp (shrink * t)) (Np.linspace 0 1 n)) in
  append_zero sigmas.

(** Modelled from the spec: [sampling.get_sigmas_polyexponential], not
    among the sources; the spec gives a log-linear interpolation warped
    by the power [rho], then the terminator. *)
Definition get_sigmas_polyexponential (n : nat) (sigma_min sigma_max rho : R)
  : list R :=
  let ramp := map (fun t => Py.pow t rho) (Np.linspace 1 0 n) in
  append_zero
    (map (fun t => exp (t * (ln sigma_max - ln sigma_min) + ln sigma_min))
         ramp).

End Sampling.

(** ** The generators

    The [device] argument only places the tensor and is left out.  The
    messages printed by the custom align-your-steps generator are not
    modelled. *)

Section Generators.

Local Open Scope R_scope.

(** [float(s)] of Python, [None] where it raises [ValueError]. *)
Variable py_float : string -> option R.

(** [scipy.stats.beta.ppf(q, a, b)], the quantile function of the Beta
    distribution. *)
Variable beta_ppf : R -> R -> R -> R.


Definition sgm_uniform (n : nat) (sigma_min sigma_max : R)
    (inner_model : InnerModel) : list R :=
  let start := sigma_to_t inner_model sigma_max in
  let end_ := sigma_to_t inner_model sigma_min in
  let sigs :=
    map (t_to_sigma inner_model)
        (removelast (Np.linspace start end_ (n + 1))) in
  sigs ++ [0].

Definition get_sigmas_karras (sh : Shared) (n : nat) (sigma_min sigma_max : R)
  : list R :=
  let rho := karras_rho (opts sh) in
  Sampling.get_sigmas_karras n sigma_min sigma_max rho.

Definition get_sigmas_exponential (sh : Shared) (n : nat)
    (sigma_min sigma_max : R) : list R :=
  let shrink_factor := exponential_shrink_factor (opts sh) in
  let sigmas := map exp (Np.linspace (ln sigma_max) (ln sigma_min) n) in
  let sigmas :=
    zip_with Rmult sigmas
      (map (fun t => exp (shrink_factor * t)) (Np.linspace 0 1 n)) in
  Sampling.append_zero sigmas.

Definition get_sigmas_polyexponential (sh : Shared) (n : nat)
    (sigma_min sigma_max : R) : list R :=
  let rho := polyexponential_rho (opts sh) in
  Sampling.get_sigmas_polyexponential n sigma_min sigma_max rho.

Definition get_sigmas_sinusoidal_sf (sh : Shared) (n : nat)
    (sigma_min sigma_max : R) : list R :=
  let sf := sinusoidal_sf_factor (opts sh) in
  let x := Np.linspace 0 1 n in
  let sigmas :=
    map (fun x => (sigma_min + (sigma_max - sigma_min) * (1 - sin (PI / 2 * x)))
                  / sigma_max) x in
  let sigmas := map (fun s => Py.pow s sf) sigmas in
  let sigmas := map (fun s => s * sigma_max) sigmas in
  sigmas.

Definition get_sigmas_invcosinusoidal_sf (sh : Shared) (n : nat)
    (sigma_min sigma_max : R) : list R :=
  let sf := invcosinusoidal_sf_factor (opts sh) in
  let x := Np.linspace 0 1 n in
  let sigmas :=
    map (fun x => (sigma_min
                   + (sigma_max - sigma_min) * (0.5 * (cos (x * PI) + 1)))
                  / sigma_max) x in
  let sigmas := map (fun s => Py.pow s sf) sigmas in
  let sigmas := map (fun s => s * sigma_max) sigmas in
  sigmas.

Definition get_sigmas_react_cosinusoidal_dynsf (sh : Shared) (n : nat)
    (sigma_min sigma_max : R) : list R :=
  let sf := react_cosinusoidal_dynsf_factor (opts sh) in
  let x := Np.linspace 0 1 n in
  let sigmas :=
    map (fun x => (sigma_min + (sigma_max - sigma_min) * cos (x * (PI / 2)))
                  / sigma_max) x in
  let sigmas :=
    zip_with Py.pow sigmas (map (fun x => sf * (INR n * x / INR n)) x) in
  let sigmas := map (fun s => s * sigma_max) sigmas in
  sigmas.

Definition ays_table_sdxl : list R :=
  [14.615; 6.315; 3.771; 2.181; 1.342; 0.862; 0.555; 0.380; 0.234; 0.113;
   0.029].

Definition ays_table_sd15 : list R :=
  [14.615; 6.475; 3.861; 2.697; 1.886; 1.396; 0.963; 0.652; 0.399; 0.152;
   0.029].

(** The helper nested in [get_align_your_steps_sigmas]: log-linear
    interpolation of a decreasing list. *)
Definition loglinear_interp (t_steps : list R) (num_steps : nat)
  : result (list R) :=
  let xs := Np.linspace 0 1 (length t_steps) in
  let ys := map ln (rev t_steps) in
  let new_xs := Np.linspace 0 1 num_steps in
  let! new_ys := Np.interp new_xs xs ys in
  let interped_ys := rev (map exp new_ys) in
  Ok interped_ys.

Definition get_align_your_steps_sigmas (sh : Shared) (n : nat)
    (sigma_min sigma_max : R) : result (list R) :=
  let sigmas := if is_sdxl sh then ays_table_sdxl else ays_table_sd15 in
  if negb (n =? length sigmas)%nat then
    let! r := loglinear_interp sigmas n in
    Ok (r ++ [0])
  else Ok (sigmas ++ [0]).

(** The parsing steps of [get_sigmas_ays_custom]: strip the brackets,
    split at the commas, convert each stripped piece with [float]. *)
Definition parse_custom_sigmas (sigmas_str : string) : result (list R) :=
  let sigmas_values := Py.split "," (Py.strip Py.is_bracket sigmas_str) in
  mapM (fun x => match py_float (Py.strip Py.is_space x) with
                 | Some v => Ok v
                 | None => Raise ValueError
                 end)
       sigmas_values.

Definition get_sigmas_ays_custom (sh : Shared) (n : nat)
    (sigma_min sigma_max : R) : result (list R) :=
  try_except
    (let sigmas_str := ays_custom_sigmas (opts sh) in
     let! sigmas := parse_custom_sigmas sigmas_str in
     let! sigmas :=
       if negb (n =? length sigmas)%nat then
         Np.interp (Np.linspace 0 1 n) (Np.linspace 0 1 (length sigmas))
                   sigmas
       else Ok sigmas in
     Ok (sigmas ++ [0]))
    (fun e => get_align_your_steps_sigmas sh n sigma_min sigma_max).

Definition kl_optimal (n : nat) (sigma_min sigma_max : R) : list R :=
  let alpha_min := atan sigma_min in
  let alpha_max := atan sigma_max in
  let step_indices := map INR (seq 0 (n + 1)) in
  map (fun i => tan (i / INR n * alpha_min + (1 - i / INR n) * alpha_max))
      step_indices.

(** The product [x * ss] and its truncation are taken over the reals; in
    float64 a product that is an integer over the reals can fall just
    below it and truncate to the integer before. *)
Definition simple_scheduler (n : nat) (sigma_min sigma_max : R)
    (inner_model : InnerModel) : result (list R) :=
  if (n =? 0)%nat then Raise ZeroDivisionError
  else
    let ss := INR (length (sigmas inner_model)) / INR n in
    let! sigs :=
      mapM (fun x => Py.index (sigmas inner_model)
                              (- (1 + Py.int (INR x * ss)))%Z)
           (seq 0 n) in
    Ok (sigs ++ [0]).

Definition normal_scheduler (n : nat) (sigma_min sigma_max : R)
    (inner_model : InnerModel) (sgm : bool) : list R :=
  let start := sigma_to_t inner_model sigma_max in
  let end_ := sigma_to_t inner_model sigma_min in
  let timesteps :=
    if sgm then removelast (Np.linspace start end_ (n + 1))
    else Np.linspace start end_ n in
  let sigs := map (t_to_sigma inner_model) timesteps in
  sigs ++ [0].

(** The [while x < len(inner_model.sigmas)] loop of [ddim_scheduler]; the
    stride is at least 1, so [fuel = len] iterations are never used up
    before the loop condition fails. *)
Fixpoint ddim_loop (fuel : nat) (table : list R) (ss x : nat)
    (sigs : list R) : result (list R) :=
  match fuel with
  | O => Ok sigs
  | S fuel' =>
      if (x <? length table)%nat then
        let! v := Py.index table (Z.of_nat x) in
        ddim_loop fuel' table ss (x + ss)%nat (sigs ++ [v])
      else Ok sigs
  end.

Definition ddim_scheduler (n : nat) (sigma_min sigma_max : R)
    (inner_model : InnerModel) : result (list R) :=
  if (n =? 0)%nat then Raise ZeroDivisionError
  else
    let table := sigmas inner_model in
    let ss := Nat.max (length table / n) 1 in
    let! sigs := ddim_loop (length table) table ss 1 [] in
    Ok (rev sigs ++ [0]).

(** The loop of [beta_scheduler]: a repeated index is skipped. *)
Fixpoint beta_loop (table : list R) (ts : list Z) (last_t : Z)
    (sigs : list R) : result (list R) :=
  match ts with
  | [] => Ok sigs
  | t :: ts' =>
      if negb (t =? last_t)%Z then
        let! v := Py.index table t in
        beta_loop table ts' t (sigs ++ [v])
      else beta_loop table ts' t sigs
  end.

Definition beta_scheduler (sh : Shared) (n : nat) (sigma_min sigma_max : R)
    (inner_model : InnerModel) : result (list R) :=
  let alpha := beta_dist_alpha (opts sh) in
  let beta := beta_dist_beta (opts sh) in
  let total_timesteps := (Z.of_nat (length (sigmas inner_model)) - 1)%Z in
  let ts := map (fun q => 1 - q) (Np.linspace_open 0 1 n) in
  let ts :=
    map (fun q => Np.rint (beta_ppf q alpha beta * IZR total_timesteps)) ts in
  let! sigs := beta_loop (sigmas inner_model) ts (-1)%Z [] in
  Ok (sigs ++ [0]).

Definition turbo_scheduler (n : nat) (sigma_min sigma_max : R)
    (inner_model : InnerModel) : result (list R) :=
  if (n =? 0)%nat then Raise ZeroDivisionError
  else
    let timesteps :=
      map (fun t => Z.min (Z.max (Np.rint t) 0) 999)
          (rev (map (fun k => INR k * (1000.0 / INR n) - 1) (seq 1 n))) in
    let sigmas := map (model_sampling_sigma inner_model) timesteps in
    Ok (sigmas ++ [0]).

(** The helper nested in [get_align_your_steps_sigmas_GITS]. *)
Definition loglinear_interp_GITS (t_steps : list R) (num_steps : nat)
  : result (list R) :=
  let xs := Np.linspace 0 1 (length t_steps) in
  let ys := map ln (rev t_steps) in
  let new_xs := Np.linspace 0 1 num_steps in
  let! new_ys := Np.interp new_xs xs ys in
  let interped_ys := rev (map exp new_ys) in
  Ok interped_ys.

Definition gits_table_sdxl : list R :=
  [14.615; 4.734; 2.567; 1.529; 0.987; 0.652; 0.418; 0.268; 0.179; 0.127;
   0.029].

Definition gits_table_sd15 : list R :=
  [14.615; 4.617; 2.507; 1.236; 0.702; 0.402; 0.240; 0.156; 0.104; 0.094;
   0.029].

Definition get_align_your_steps_sigmas_GITS (sh : Shared) (n : nat)
    (sigma_min sigma_max : R) : result (list R) :=
  let sigmas := if is_sdxl sh then gits_table_sdxl else gits_table_sd15 in
  if negb (n =? length sigmas)%nat then
    let! r := loglinear_interp_GITS sigmas n in
    Ok (r ++ [0])
  else Ok (sigmas ++ [0]).

(** The helper nested in [ays_11_sigmas]. *)
Definition loglinear_interp_11 (t_steps : list R) (num_steps : nat)
  : result (list R) :=
  let xs := Np.linspace 0 1 (length t_steps) in
  let ys := map ln (rev t_steps) in
  let new_xs := Np.linspace 0 1 num_steps in
  let! new_ys := Np.interp new_xs xs ys in
  let interped_ys := rev (map exp new_ys) in
  Ok interped_ys.

Definition ays_11_sigmas (sh : Shared) (n : nat) (sigma_min sigma_max : R)
  : result (list R) :=
  let sigmas := if is_sdxl sh then ays_table_sdxl else ays_table_sd15 in
  if negb (n =? length sigmas)%nat then
    let! r := loglinear_interp_11 sigmas n in
    Ok (r ++ [0])
  else Ok (sigmas ++ [0]).

(** The helper nested in [ays_32_sigmas]. *)
Definition loglinear_interp_32 (t_steps : list R) (num_steps : nat)
  : result (list R) :=
  let xs := Np.linspace 0 1 (length t_steps) in
  let ys := map ln (rev t_steps) in
  let new_xs := Np.linspace 0 1 num_steps in
  let! new_ys := Np.interp new_xs xs ys in
  let interped_ys := rev (map exp new_ys) in
  Ok interped_ys.

Definition ays_32_table_sdxl : list R :=
  [14.615; 11.1491618; 8.50522127; 6.48827151; 5.43707402; 4.60398619;
   3.89854704; 3.27407457; 2.74396527; 2.29968659; 1.95448514;
   1.67108715; 1.42878152; 1.23181009; 1.06789649; 0.92579443;
   0.80290886; 0.69660121; 0.60436903; 0.52852552; 0.46773344;
   0.41393379; 0.36258186; 0.31008517; 0.26518925; 0.22326461;
   0.17653877; 0.13959192; 0.10587381; 0.05519369; 0.02877334; 0.015].

Definition ays_32_table_sd15 : list R :=
  [14.615; 11.23951352; 8.64363081; 6.64729424; 5.57250862; 4.71648546;
   3.99196065; 3.5195609; 3.13490466; 2.79228788; 2.48773628; 2.21663865;
   1.97508351; 1.7793172; 1.61475335; 1.46540953; 1.314849; 1.16642497;
   1.03475547; 0.91573744; 0.80748169; 0.71202361; 0.621739; 0.53065202;
   0.4529096; 0.37491455; 0.27461819; 0.2011529; 0.14105873; 0.06682881;
   0.03166121; 0.015].

Definition ays_32_sigmas (sh : Shared) (n : nat) (sigma_min sigma_max : R)
  : result (list R) :=
  let sigmas := if is_sdxl sh then ays_32_table_sdxl else ays_32_table_sd15 in
  if negb (n =? length sigmas)%nat then
    let! r := loglinear_interp_32 sigmas n in
    Ok (r ++ [0])
  else Ok (sigmas ++ [0]).

Definition cosine_scheduler (sh : Shared) (n : nat) (sigma_min sigma_max : R)
  : list R :=
  let sf := cosine_sf_factor (opts sh) in
  let sigmas :=
    if (n =? 1)%nat then [Py.pow sigma_max 0.5]
    else
      map (fun x =>
             let p := INR x / INR (n - 1) in
             let C := sigma_min
                      + 0.5 * (sigma_max - sigma_min)
                        * (1 - cos (PI * (1 - Py.pow p 0.5))) in
             C * sf)
          (seq 0 n) in
  sigmas ++ [0].

(** The loop of [cosexpblend_scheduler], which carries [E]. *)
Fixpoint cosexpblend_loop (n : nat) (sigma_min sigma_max K : R)
    (xs : list nat) (E : R) (sigmas : list R) : list R :=
  match xs with
  | [] => sigmas
  | x :: xs' =>
      let p := INR x / INR (n - 1) in
      let C := sigma_min
               + 0.5 * (sigma_max - sigma_min)
                 * (1 - cos (PI * (1 - Py.pow p 0.5))) in
      cosexpblend_loop n sigma_min sigma_max K xs' (E * K)
                       (sigmas ++ [C + p * (E - C)])
  end.

(** [K = decay ** (1/(n-1))] is a Python float power: it raises for a zero
    decay when [n = 0], and it is complex for a negative decay when
    [1/(n-1)] is not an integer ([n >= 3]); the second value appended is
    then complex and [torch.FloatTensor] rejects the list. *)
Definition cosexpblend_scheduler (sh : Shared) (n : nat)
    (sigma_min sigma_max : R) : result (list R) :=
  let decay := cosexpblend_exp_decay (opts sh) in
  if (n =? 1)%nat then Ok ([Py.pow sigma_max 0.5] ++ [0])
  else
    match Py.float_pow decay (1 / IZR (Z.of_nat n - 1)) with
    | Py.PowFloat K =>
        let E := sigma_max in
        Ok (cosexpblend_loop n sigma_min sigma_max K (seq 0 n) E [] ++ [0])
    | Py.PowZeroDivision => Raise ZeroDivisionError
    | Py.PowComplex =>
        if (n <? 2)%nat then Ok ([] ++ [0]) else Raise TypeError
    end.

Definition phi_scheduler (sh : Shared) (n : nat) (sigma_min sigma_max : R)
  : list R :=
  let power := phi_power (opts sh) in
  let sigmas :=
    if (n =? 1)%nat then [Py.pow sigma_max 0.5]
    else
      let phi := (1 + Py.pow 5 0.5) / 2 in
      map (fun x =>
             sigma_min
             + (sigma_max - sigma_min)
               * Py.pow (1 - INR x / INR (n - 1)) (Py.pow phi power))
          (seq 0 n) in
  sigmas ++ [0].

Definition get_sigmas_laplace (sh : Shared) (n : nat) (sigma_min sigma_max : R)
  : list R :=
  let mu := laplace_mu (opts sh) in
  let beta := laplace_beta (opts sh) in
  let epsilon := 1e-5 in
  let x := Np.linspace 0 1 n in
  let clamp := Py.clamp sigma_min sigma_max in
  let lmb :=
    map (fun x => mu - beta * Py.sign (0.5 - x)
                       * ln (1 - 2 * Rabs (0.5 - x) + epsilon)) x in
  let sigmas := map (fun l => clamp (exp l)) lmb in
  sigmas ++ [0].


End Generators.

(** ** The registry *)

(** The functions a [Scheduler] can refer to. *)
Inductive function_ref : Set :=
  | sampling_get_sigmas_karras
  | sampling_get_sigmas_exponential
  | sampling_get_sigmas_polyexponential
  | ref_get_sigmas_sinusoidal_sf
  | ref_get_sigmas_invcosinusoidal_sf
  | ref_get_sigmas_react_cosinusoidal_dynsf
  | ref_uniform
  | ref_sgm_uniform
  | ref_kl_optimal
  | ref_simple_scheduler
  | ref_normal_scheduler
  | ref_ddim_scheduler
  | ref_get_align_your_steps_sigmas
  | ref_get_sigmas_ays_custom
  | ref_beta_scheduler
  | ref_turbo_scheduler
  | ref_cosine_scheduler
  | ref_cosexpblend_scheduler
  | ref_phi_scheduler
  | ref_get_sigmas_laplace
  | ref_get_sigmas_karras_dynamic
  | ref_get_align_your_steps_sigmas_GITS
  | ref_ays_11_sigmas
  | ref_ays_32_sigmas.

Record Scheduler : Type := {
  name : string;
  label : string;
  function : option function_ref;
  default_rho : R;
  need_inner_model : bool;
  aliases : option (list string)
}.

(** [Scheduler(name, label, function)] with the defaults of the dataclass. *)
Definition Scheduler_ (name label : string) (function : option function_ref)
  : Scheduler :=
  {| name := name; label := label; function := function;
     default_rho := (-1)%R; need_inner_model := false; aliases := None |}.

Definition with_default_rho (rho : R) (s : Scheduler) : Scheduler :=
  {| name := name s; label := label s; function := function s;
     default_rho := rho; need_inner_model := need_inner_model s;
     aliases := aliases s |}.

Definition with_need_inner_model (s : Scheduler) : Scheduler :=
  {| name := name s; label := label s; function := function s;
     default_rho := default_rho s; need_inner_model := true;
     aliases := aliases s |}.

Definition with_aliases (a : list string) (s : Scheduler) : Scheduler :=
  {| name := name s; label := label s; function := function s;
     default_rho := default_rho s; need_inner_model := need_inner_model s;
     aliases := Some a |}.

Definition schedulers : list Scheduler := [
  Scheduler_ "automatic" "Automatic" None;
  with_default_rho 7.0
    (Scheduler_ "karras" "Karras" (Some sampling_get_sigmas_karras));
  Scheduler_ "exponential" "Exponential"
    (Some sampling_get_sigmas_exponential);
  with_default_rho 1.0
    (Scheduler_ "polyexponential" "Polyexponential"
       (Some sampling_get_sigmas_polyexponential));
  Scheduler_ "sinusoidal_sf" "Sinusoidal SF" (Some ref_get_sigmas_sinusoidal_sf);
  Scheduler_ "invcosinusoidal_sf" "Invcosinusoidal SF"
    (Some ref_get_sigmas_invcosinusoidal_sf);
  Scheduler_ "react_cosinusoidal_dynsf" "React Cosinusoidal DynSF"
    (Some ref_get_sigmas_react_cosinusoidal_dynsf);
  with_need_inner_model (Scheduler_ "uniform" "Uniform" (Some ref_uniform));
  with_aliases ["SGMUniform"]
    (with_need_inner_model
       (Scheduler_ "sgm_uniform" "SGM Uniform" (Some ref_sgm_uniform)));
  Scheduler_ "kl_optimal" "KL Optimal" (Some ref_kl_optimal);
  with_need_inner_model
    (Scheduler_ "simple" "Simple" (Some ref_simple_scheduler));
  with_need_inner_model
    (Scheduler_ "normal" "Normal" (Some ref_normal_scheduler));
  with_need_inner_model (Scheduler_ "ddim" "DDIM" (Some ref_ddim_scheduler));
  Scheduler_ "align_your_steps" "Align Your Steps"
    (Some ref_get_align_your_steps_sigmas);
  Scheduler_ "align_your_steps_custom" "Align Your Steps Custom"
    (Some ref_get_sigmas_ays_custom);
  with_need_inner_model (Scheduler_ "beta" "Beta" (Some ref_beta_scheduler));
  with_need_inner_model (Scheduler_ "turbo" "Turbo" (Some ref_turbo_scheduler));
  Scheduler_ "cosine" "Cosine" (Some ref_cosine_scheduler);
  Scheduler_ "cosine-exponential blend" "Cosine-exponential Blend"
    (Some ref_cosexpblend_scheduler);
  Scheduler_ "phi" "Phi" (Some ref_phi_scheduler);
  Scheduler_ "laplace" "Laplace" (Some ref_get_sigmas_laplace);
  Scheduler_ "karras dynamic" "Karras Dynamic"
    (Some ref_get_sigmas_karras_dynamic);
  Scheduler_ "align_your_steps_GITS" "Align Your Steps GITS"
    (Some ref_get_align_your_steps_sigmas_GITS);
  Scheduler_ "align_your_steps_11" "Align Your Steps 11"
    (Some ref_ays_11_sigmas);
  Scheduler_ "align_your_steps_32" "Align Your Steps 32"
    (Some ref_ays_32_sigmas)
].

(** A dict comprehension [{k: v for ...}]: the pairs are stored in order,
    a later pair replaces an earlier one with the same key. *)
Definition dict_of_pairs {V : Type} (kvs : list (string * V)) : gmap string V :=
  foldl (fun m kv => <[kv.1 := kv.2]> m) ∅ kvs.

(** [{**a, **b}]: the entries of [b] win. *)
Definition dict_merge {V : Type} (a b : gmap string V) : gmap string V := b ∪ a.

(** The expression defining [schedulers_map], over any list of schedulers. *)
Definition build_schedulers_map (l : list Scheduler) : gmap string Scheduler :=
  dict_merge (dict_of_pairs (map (fun x => (name x, x)) l))
             (dict_of_pairs (map (fun x => (label x, x)) l)).

Definition schedulers_map : gmap string Scheduler :=
  build_schedulers_map schedulers.


(** The scheduler registered as "sgm_uniform". *)
Definition sgm_uniform_descriptor : Scheduler :=
  with_aliases ["SGMUniform"]
    (with_need_inner_model
       (Scheduler_ "sgm_uniform" "SGM Uniform" (Some ref_sgm_uniform))).

(** ** Notions the properties are stated with *)

(** Every element is at least every later one. *)
Definition non_increasing (l : list R) : Prop :=
  StronglySorted (fun a b => (b <= a)%R) l.

(** Linear resampling of a list of values to [k] evenly spaced positions
    of its index range. *)
Definition linear_resample (values : list R) (k : nat) : result (list R) :=
  Np.interp (Np.linspace 0 1 k) (Np.linspace 0 1 (length values)) values.

(** The log-linear interpolation as the specification words it: the
    natural log of the reversed (ascending) table, linearly interpolated
    over [k] evenly spaced positions, exponentiated, reversed back to
    descending order. *)
Definition spec_loglinear_resample (table : list R) (k : nat)
  : result (list R) :=
  let ascending := rev table in
  let logs := map ln ascending in
  let! interpolated := linear_resample logs k in
  Ok (rev (map exp interpolated)).





(** ** The derivative helper *)

(** [to_d(x, sigma, denoised)], for tensors [x] and [denoised] of one shape
    and a scalar [sigma]. *)
Definition to_d (x : list R) (sigma : R) (denoised : list R) : list R :=
  map (fun d => (d / sigma)%R) (zip_with Rminus x denoised).

(** The last scheduler of a list whose key (name or label) is [k]. *)
Definition last_with (key : Scheduler -> string) (k : string)
    (l : list Scheduler) : option Scheduler :=
  List.find (fun s => String.eqb (key s) k) (rev l).

(** Every element is greater than every later one. *)
Definition strictly_decreasing (l : list R) : Prop :=
  StronglySorted (fun a b => (b < a)%R) l.

(** ** Inputs for the examples *)

Definition digit_of (c : ascii) : option Z :=
  let k := nat_of_ascii c in
  if ((48 <=? k) && (k <=? 57))%nat then Some (Z.of_nat (k - 48)) else None.

Fixpoint read_digits (s : string) (acc : Z) (k : nat) : Z * nat * string :=
  match s with
  | String c s' =>
      match digit_of c with
      | Some d => read_digits s' (10 * acc + d)%Z (S k)
      | None => (acc, k, s)
      end
  | EmptyString => (acc, k, s)
  end.

(** [float] on the plain decimal literals (sign, digits, fraction); an
    instance of [py_float] for the examples, which use no other
    literal. *)
Definition decimal_float (s : string) : option R :=
  let '(neg, s1) :=
    match s with
    | String "-" r => (true, r)
    | String "+" r => (false, r)
    | _ => (false, s)
    end in
  let '(i, ki, s2) := read_digits s1 0 0 in
  let '(m, kf, s3) :=
    match s2 with
    | String "." r => read_digits r i 0
    | _ => (i, 0%nat, s2)
    end in
  match s3 with
  | EmptyString =>
      if (ki + kf =? 0)%nat then None
      else Some (IZR (if neg then - m else m) / IZR (10 ^ Z.of_nat kf))%R
  | _ => None
  end.

(** The quantile function of Beta(1,1), the uniform distribution. *)
Definition uniform_ppf (q a b : R) : R := q.

Definition example_opts (custom : string) : Opts :=
  {| karras_rho := 7; exponential_shrink_factor := 0;
     polyexponential_rho := 1; sinusoidal_sf_factor := 1;
     invcosinusoidal_sf_factor := 1; react_cosinusoidal_dynsf_factor := 1;
     ays_custom_sigmas := custom;
     beta_dist_alpha := 1; beta_dist_beta := 1;
     cosine_sf_factor := 1; cosexpblend_exp_decay := 0.9; phi_power := 2;
     laplace_mu := 0; laplace_beta := 0.5; karras_dynamic_rho := 7 |}.

Definition example_shared (custom : string) : Shared :=
  {| opts := example_opts custom; is_sdxl := false |}.



Definition example_inner_model : InnerModel :=
  {| sigma_to_t := fun s => s; t_to_sigma := fun t => t;
     sigmas := [3; 2; 1]%R; get_sigmas := fun n => [];
     model_sampling_sigma := fun t => IZR t |}.

(** * Properties *)

(** ** The model on small inputs *)

Example strip_brackets : Py.strip Py.is_bracket "[1,2,abc]" = "1,2,abc".
Proof. reflexivity. Qed.

Example split_commas : Py.split "," "1,2,abc" = ["1"; "2"; "abc"].
Proof. reflexivity. Qed.

Example split_empty : Py.split "," "" = [""].
Proof. reflexivity. Qed.

Example strip_spaces : Py.strip Py.is_space " 0.5 " = "0.5".
Proof. reflexivity. Qed.

Example decimal_float_abc : decimal_float "abc" = None.
Proof. reflexivity. Qed.

Example decimal_float_half : decimal_float "-0.5" = Some (-5 / 10)%R.
Proof. vm_compute. reflexivity. Qed.

Example parse_malformed :
  parse_custom_sigmas decimal_float "[1,2,abc]" = Raise ValueError.
Proof. vm_compute. reflexivity. Qed.

Example index_negative : Py.index [3; 2; 1]%R (-1) = Ok 1%R.
Proof. reflexivity. Qed.

Example index_out_of_range : Py.index [3; 2; 1]%R 3 = Raise IndexError.
Proof. reflexivity. Qed.

Example rint_half_to_even : Np.rint 2.5 = 2%Z /\ Np.rint 3.5 = 4%Z.
Proof.
  assert (Int_part 2.5 = 2%Z) as H2.
  { symmetry. apply Int_part_spec. lra. }
  assert (Int_part 3.5 = 3%Z) as H3.
  { symmetry. apply Int_part_spec. lra. }
  unfold Np.rint, frac_part. rewrite H2, H3. split.
  - destruct (Rlt_dec (2.5 - 2) (1 / 2)); [lra|].
    destruct (Rlt_dec (1 / 2) (2.5 - 2)); [lra|done].
  - destruct (Rlt_dec (3.5 - 3) (1 / 2)); [lra|].
    destruct (Rlt_dec (1 / 2) (3.5 - 3)); [lra|done].
Qed.

(** The loop of [ddim_scheduler] has stopped by itself when its fuel runs
    out: more fuel changes nothing. *)
Lemma ddim_loop_fuel (fuel : nat) (table : list R) (ss x : nat)
    (sigs : list R) :
  (1 <= ss)%nat -> (length table <= fuel + x)%nat ->
  ddim_loop (S fuel) table ss x sigs = ddim_loop fuel table ss x sigs.
Proof.
  revert x sigs. induction fuel as [|fuel IH]; intros x sigs Hss Hlen.
  - simpl. destruct (Nat.ltb_spec x (length table)); [lia|done].
  - change (ddim_loop (S (S fuel)) table ss x sigs)
      with (if (x <? length table)%nat
            then let! v := Py.index table (Z.of_nat x) in
                 ddim_loop (S fuel) table ss (x + ss)%nat (sigs ++ [v])
            else Ok sigs).
    change (ddim_loop (S fuel) table ss x sigs)
      with (if (x <? length table)%nat
            then let! v := Py.index table (Z.of_nat x) in
                 ddim_loop fuel table ss (x + ss)%nat (sigs ++ [v])
            else Ok sigs).
    destruct (x <? length table)%nat; [|done].
    destruct (Py.index table (Z.of_nat x)); simpl; [|done].
    apply IH; [done|lia].
Qed.

(** ** The registry *)

Section DictOfPairs.

Context {V : Type}.

Lemma foldl_insert_lookup_ne (kvs : list (string * V)) (m : gmap string V) k :
  k ∉ map fst kvs ->
  foldl (fun m kv => <[kv.1 := kv.2]> m) m kvs !! k = m !! k.
Proof.
  revert m. induction kvs as [|[k' v] kvs IH]; intros m Hk; simpl; [done|].
  simpl in Hk. apply not_elem_of_cons in Hk as [Hne Hk].
  rewrite IH by done. by rewrite lookup_insert_ne.
Qed.

(** The last pair with a given key is the one looked up. *)
Lemma dict_of_pairs_app_last (kvs1 kvs2 : list (string * V)) k v :
  k ∉ map fst kvs2 ->
  dict_of_pairs (kvs1 ++ (k, v) :: kvs2) !! k = Some v.
Proof.
  intros Hk. unfold dict_of_pairs. rewrite foldl_app. simpl.
  rewrite foldl_insert_lookup_ne by done. by rewrite lookup_insert_eq.
Qed.

Lemma dict_of_pairs_None (kvs : list (string * V)) k :
  k ∉ map fst kvs -> dict_of_pairs kvs !! k = None.
Proof.
  intros Hk. unfold dict_of_pairs.
  rewrite foldl_insert_lookup_ne by done. apply lookup_empty.
Qed.

Lemma dict_of_pairs_Some (kvs : list (string * V)) k v :
  dict_of_pairs kvs !! k = Some v -> (k, v) ∈ kvs.
Proof.
  unfold dict_of_pairs.
  assert (forall m : gmap string V,
            foldl (fun m kv => <[kv.1 := kv.2]> m) m kvs !! k = Some v ->
                    (k, v) ∈ kvs \/ m !! k = Some v) as H.
  { induction kvs as [|[k' v'] kvs IH]; intros m Hm; simpl in *; [by right|].
    destruct (IH _ Hm) as [Hin|Hl].
    - left. by apply elem_of_cons; right.
    - destruct (decide (k' = k)) as [->|Hne].
      + rewrite lookup_insert_eq in Hl. injection Hl as ->.
        left. apply elem_of_cons. by left.
      + rewrite lookup_insert_ne in Hl by done. by right. }
  intros Hm. destruct (H _ Hm) as [?|Hl]; [done|].
  by rewrite lookup_empty in Hl.
Qed.

End DictOfPairs.

(** Whatever the map holds under a key is a scheduler of the list with that
    key as its name or its label. *)
Lemma build_schedulers_map_Some (l : list Scheduler) k d :
  build_schedulers_map l !! k = Some d ->
  d ∈ l /\ (name d = k \/ label d = k).
Proof.
  unfold build_schedulers_map, dict_merge. intros H.
  apply lookup_union_Some_raw in H as [H|[_ H]];
    apply dict_of_pairs_Some in H;
    apply list_elem_of_fmap in H as (s & Heq & Hs);
    injection Heq as -> ->; split; auto.
Qed.

(** A key that is neither a name nor a label is not in the map. *)
Lemma build_schedulers_map_None (l : list Scheduler) k :
  k ∉ map name l -> k ∉ map label l -> build_schedulers_map l !! k = None.
Proof.
  intros Hn Hl. unfold build_schedulers_map, dict_merge.
  apply lookup_union_None. split; apply dict_of_pairs_None.
  - by rewrite map_map, (map_ext _ label).
  - by rewrite map_map, (map_ext _ name).
Qed.

Lemma schedulers_keys_NoDup :
  NoDup (map name schedulers ++ map label schedulers).
Proof. apply (bool_decide_unpack _). vm_compute. exact I. Qed.

Lemma map_fst_keyed {A : Type} (f : A -> string) (l : list A) :
  map fst (map (fun x => (f x, x)) l) = map f l.
Proof. rewrite map_map. by apply map_ext. Qed.

(** With pairwise distinct names and labels, every scheduler of the list is
    found under its name and under its label. *)
Lemma build_schedulers_map_found (l : list Scheduler) s :
  NoDup (map name l ++ map label l) ->
  s ∈ l ->
  build_schedulers_map l !! name s = Some s /\
  build_schedulers_map l !! label s = Some s.
Proof.
  intros Hnd Hs.
  apply NoDup_app in Hnd as (Hn & Hnl & Hl).
  assert (name s ∉ map label l) as Hcross.
  { apply Hnl. apply list_elem_of_fmap. by exists s. }
  apply list_elem_of_split in Hs as (l1 & l2 & ->).
  rewrite !map_app in Hn, Hl. simpl in Hn, Hl.
  apply NoDup_app in Hn as (_ & _ & Hn). apply NoDup_cons in Hn as [Hn _].
  apply NoDup_app in Hl as (_ & _ & Hl). apply NoDup_cons in Hl as [Hl _].
  unfold build_schedulers_map, dict_merge. split.
  - rewrite lookup_union_r.
    + rewrite map_app. simpl. apply dict_of_pairs_app_last.
      by rewrite map_fst_keyed.
    + apply dict_of_pairs_None. by rewrite map_fst_keyed.
  - apply lookup_union_Some_raw. left.
    rewrite map_app. simpl. apply dict_of_pairs_app_last.
    by rewrite map_fst_keyed.
Qed.

Lemma sgm_uniform_registered : sgm_uniform_descriptor ∈ schedulers.
Proof.
  unfold schedulers. do 8 (apply elem_of_cons; right).
  apply elem_of_cons. by left.
Qed.

Lemma sgm_uniform_by_name :
  schedulers_map !! "sgm_uniform" = Some sgm_uniform_descriptor.
Proof.
  apply (build_schedulers_map_found schedulers sgm_uniform_descriptor
           schedulers_keys_NoDup sgm_uniform_registered).
Qed.

Lemma sgm_uniform_by_label :
  schedulers_map !! "SGM Uniform" = Some sgm_uniform_descriptor.
Proof.
  apply (build_schedulers_map_found schedulers sgm_uniform_descriptor
           schedulers_keys_NoDup sgm_uniform_registered).
Qed.

Lemma SGMUniform_not_a_key : schedulers_map !! "SGMUniform" = None.
Proof.
  apply build_schedulers_map_None;
    apply (bool_decide_unpack _); vm_compute; exact I.
Qed.

(** C2, as the code has it: the keys of [schedulers_map] are the names and
    the labels only.  The name "sgm_uniform" and the label "SGM Uniform"
    resolve to the same scheduler, which records "SGMUniform" in its
    [aliases]; "SGMUniform" itself is not a key of the map. *)
Theorem schedulers_map_alias_not_a_key :
  schedulers_map !! "sgm_uniform" = Some sgm_uniform_descriptor /\
  schedulers_map !! "SGM Uniform" = Some sgm_uniform_descriptor /\
  aliases sgm_uniform_descriptor = Some ["SGMUniform"] /\
  schedulers_map !! "SGMUniform" = None /\
  (forall k d, schedulers_map !! k = Some d ->
               d ∈ schedulers /\ (name d = k \/ label d = k)).
Proof.
  split; [exact sgm_uniform_by_name|]. split; [exact sgm_uniform_by_label|].
  split; [reflexivity|]. split; [exact SGMUniform_not_a_key|].
  intros k d. apply build_schedulers_map_Some.
Qed.

(** C2 as stated fails: resolving "SGMUniform" does not give what
    resolving "sgm_uniform" gives. *)
Lemma schedulers_map_alias_differs :
  schedulers_map !! "SGMUniform" <> schedulers_map !! "sgm_uniform".
Proof. rewrite sgm_uniform_by_name, SGMUniform_not_a_key. discriminate. Qed.

(** C6, as the code has it: the names and labels of the registered
    schedulers are pairwise distinct, so building [schedulers_map]
    replaces no entry: it has one entry per name and per label, and every
    scheduler is found under its own name and label. *)
Theorem schedulers_keys_unique :
  NoDup (map name schedulers ++ map label schedulers) /\
  size schedulers_map = (2 * length schedulers)%nat /\
  (forall s, s ∈ schedulers ->
             schedulers_map !! name s = Some s /\
             schedulers_map !! label s = Some s).
Proof.
  split; [exact schedulers_keys_NoDup|]. split.
  - vm_compute. reflexivity.
  - intros s Hs.
    apply (build_schedulers_map_found schedulers s schedulers_keys_NoDup Hs).
Qed.

Lemma schedulers_keys_unique_witness :
  schedulers_map !! name sgm_uniform_descriptor = Some sgm_uniform_descriptor /\
  schedulers_map !! label sgm_uniform_descriptor = Some sgm_uniform_descriptor.
Proof.
  apply (proj2 (proj2 schedulers_keys_unique) sgm_uniform_descriptor).
  exact sgm_uniform_registered.
Defined.

(** C6 as stated fails: the build has no check.  Two schedulers registered
    under the same name are accepted, and the later one replaces the
    earlier one under that name. *)
Lemma build_schedulers_map_overwrites :
  let a := Scheduler_ "dup" "First" None in
  let b := Scheduler_ "dup" "Second" (Some ref_kl_optimal) in
  a <> b /\
  build_schedulers_map [a; b] !! "dup" = Some b /\
  build_schedulers_map [a; b] !! "dup" <> Some a.
Proof.
  intros a b.
  assert (a <> b) as Hab by (intros H; discriminate (f_equal label H)).
  assert (build_schedulers_map [a; b] !! "dup" = Some b) as Hb.
  { unfold build_schedulers_map, dict_merge.
    rewrite lookup_union_r.
    - apply (dict_of_pairs_app_last [("dup", a)] [] "dup" b).
      apply not_elem_of_nil.
    - apply dict_of_pairs_None. simpl.
      apply (bool_decide_unpack _). vm_compute. exact I. }
  split; [exact Hab|]. split; [exact Hb|].
  rewrite Hb. intros H. injection H as H. by apply Hab.
Qed.

(** ** [linspace] *)

Section Linspace.

Local Open Scope R_scope.

Lemma linspace_length a b n : length (Np.linspace a b n) = n.
Proof.
  destruct n as [|[|n]]; simpl; [done..|].
  by rewrite length_map, length_seq.
Qed.

Lemma linspace_open_length a b n : length (Np.linspace_open a b n) = n.
Proof. unfold Np.linspace_open. by rewrite length_map, length_seq. Qed.

(** A non-empty [linspace] starts at its first bound. *)
Lemma linspace_head a b n :
  exists tl, Np.linspace a b (S n) = a :: tl.
Proof.
  destruct n as [|n]; [by exists []|].
  unfold Np.linspace. rewrite <- cons_seq. simpl map.
  eexists. f_equal. simpl INR. lra.
Qed.

Lemma seq_StronglySorted s n : StronglySorted lt (seq s n).
Proof.
  revert s. induction n as [|n IH]; intros s; simpl; constructor; [apply IH|].
  apply Forall_forall. intros k Hk. apply elem_of_seq in Hk. lia.
Qed.

Lemma StronglySorted_map {A B : Type} (RA : A -> A -> Prop)
    (RB : B -> B -> Prop) (f : A -> B) (l : list A) :
  (forall a a', RA a a' -> RB (f a) (f a')) ->
  StronglySorted RA l -> StronglySorted RB (map f l).
Proof.
  intros Hf. induction 1 as [|a l Hl IH Ha]; simpl; constructor; [done|].
  apply Forall_map. eapply Forall_impl; [exact Ha|]. intros a'. apply Hf.
Qed.

Lemma linspace_increasing a b n :
  a < b -> StronglySorted Rlt (Np.linspace a b n).
Proof.
  intros Hab. destruct n as [|[|n]].
  - constructor.
  - repeat constructor.
  - unfold Np.linspace.
    apply (StronglySorted_map lt Rlt); [|apply seq_StronglySorted].
    intros i j Hij. apply lt_INR in Hij.
    assert (0 < (b - a) / INR (S (S n) - 1)) as Hstep.
    { apply Rdiv_lt_0_compat; [lra|]. apply lt_0_INR. lia. }
    nra.
Qed.

Lemma StronglySorted_Rlt_Rle l : StronglySorted Rlt l -> StronglySorted Rle l.
Proof.
  intros H. rewrite <- (map_id l).
  apply (StronglySorted_map Rlt Rle); [|done]. intros; simpl; lra.
Qed.

End Linspace.

(** ** [np.interp] *)

Section Interp.

Local Open Scope R_scope.

Lemma StronglySorted_hd_le (l : list R) x :
  StronglySorted Rle l -> x ∈ l -> hd 0 l <= x.
Proof.
  intros Hs Hx. destruct l as [|y l]; [by apply elem_of_nil in Hx|].
  simpl. apply elem_of_cons in Hx as [->|Hx]; [lra|].
  apply StronglySorted_inv in Hs as [_ Hy].
  by apply (proj1 (Forall_forall _ _) Hy).
Qed.

Lemma StronglySorted_le_last (l : list R) x :
  StronglySorted Rle l -> x ∈ l -> x <= List.last l 0.
Proof.
  intros Hs. revert x.
  induction Hs as [|y l Hl IH Hy]; intros x Hx; [by apply elem_of_nil in Hx|].
  destruct l as [|z l].
  - apply list_elem_of_singleton in Hx as ->. simpl. lra.
  - change (List.last (y :: z :: l) 0) with (List.last (z :: l) 0).
    apply elem_of_cons in Hx as [->|Hx]; [|by apply IH].
    apply Rle_trans with z.
    + apply (proj1 (Forall_forall _ _) Hy). apply elem_of_cons. by left.
    + apply IH. apply elem_of_cons. by left.
Qed.

(** On a segment the interpolant stays between the values at its ends. *)
Lemma segment_bounds x0 x1 y0 y1 x :
  x0 < x1 -> y0 <= y1 -> x0 <= x < x1 ->
  y0 <= (y1 - y0) / (x1 - x0) * (x - x0) + y0 <= y1.
Proof.
  intros Hx Hy [Hlo Hhi].
  set (s := (y1 - y0) / (x1 - x0)).
  assert (0 <= s) as Hs.
  { unfold s. apply Rmult_le_pos; [lra|].
    apply Rlt_le, Rinv_0_lt_compat. lra. }
  assert (s * (x1 - x0) = y1 - y0) as Hfull by (unfold s; field; lra).
  nra.
Qed.

Lemma segment_mono x0 x1 y0 y1 x x' :
  x0 < x1 -> y0 <= y1 -> x <= x' ->
  (y1 - y0) / (x1 - x0) * (x - x0) + y0
  <= (y1 - y0) / (x1 - x0) * (x' - x0) + y0.
Proof.
  intros Hx Hy Hxx.
  assert (0 <= (y1 - y0) / (x1 - x0)) as Hs.
  { apply Rmult_le_pos; [lra|]. apply Rlt_le, Rinv_0_lt_compat. lra. }
  nra.
Qed.

Lemma interp_scan_cons2 x x0 x1 xp y0 y1 fp :
  Np.interp_scan x (x0 :: x1 :: xp) (y0 :: y1 :: fp) =
  if Rlt_dec x x1 then
    if Req_dec_T x x0 then y0
    else (y1 - y0) / (x1 - x0) * (x - x0) + y0
  else Np.interp_scan x (x1 :: xp) (y1 :: fp).
Proof. reflexivity. Qed.

(** From the first knot on, the scan stays between the first and the
    last value. *)
Lemma interp_scan_bounds (xp fp : list R) x :
  length xp = length fp ->
  StronglySorted Rlt xp -> StronglySorted Rle fp ->
  hd 0 xp <= x ->
  hd 0 fp <= Np.interp_scan x xp fp <= List.last fp 0.
Proof.
  revert fp. induction xp as [|x0 xp IH]; intros fp Hlen Hxs Hfs Hx.
  - destruct fp; [simpl; lra|done].
  - destruct fp as [|y0 fp]; [done|].
    destruct xp as [|x1 xp]; destruct fp as [|y1 fp];
      [simpl; lra|done|done|].
    + apply StronglySorted_inv in Hxs as [Hxs Hx0].
      apply StronglySorted_inv in Hfs as [Hfs Hy0].
      apply Forall_cons in Hx0 as [Hx01 _].
      apply Forall_cons in Hy0 as [Hy01 _].
      assert (y1 <= List.last (y1 :: fp) 0) as Hlast.
      { apply StronglySorted_le_last; [done|]. apply elem_of_cons. by left. }
      change (List.last (y0 :: y1 :: fp) 0) with (List.last (y1 :: fp) 0).
      simpl in Hx. rewrite interp_scan_cons2. simpl hd.
      destruct (Rlt_dec x x1) as [Hlt|Hge].
      * destruct (Req_dec_T x x0) as [->|Hne]; [lra|].
        pose proof (segment_bounds x0 x1 y0 y1 x Hx01 Hy01
                      (conj Hx Hlt)). lra.
      * assert (x1 <= x) as Hx1 by lra.
        specialize (IH (y1 :: fp) ltac:(simpl in *; lia) Hxs Hfs Hx1).
        simpl hd in IH. lra.
Qed.

(** From the first knot on, the scan is non-decreasing. *)
Lemma interp_scan_mono (xp fp : list R) x x' :
  length xp = length fp ->
  StronglySorted Rlt xp -> StronglySorted Rle fp ->
  hd 0 xp <= x -> x <= x' ->
  Np.interp_scan x xp fp <= Np.interp_scan x' xp fp.
Proof.
  revert fp. induction xp as [|x0 xp IH]; intros fp Hlen Hxs Hfs Hx Hxx.
  - destruct fp; [simpl; lra|done].
  - destruct fp as [|y0 fp]; [done|].
    destruct xp as [|x1 xp]; destruct fp as [|y1 fp];
      [simpl; lra|done|done|].
    + pose proof Hxs as Hxs0. pose proof Hfs as Hfs0.
      apply StronglySorted_inv in Hxs as [Hxs Hx0].
      apply StronglySorted_inv in Hfs as [Hfs Hy0].
      apply Forall_cons in Hx0 as [Hx01 _].
      apply Forall_cons in Hy0 as [Hy01 _].
      simpl in Hx. rewrite !interp_scan_cons2.
      destruct (Rlt_dec x x1) as [Hlt|Hge];
        destruct (Rlt_dec x' x1) as [Hlt'|Hge']; try lra.
      * destruct (Req_dec_T x x0) as [->|Hne];
          destruct (Req_dec_T x' x0) as [->|Hne']; try lra.
        -- pose proof (segment_bounds x0 x1 y0 y1 x' Hx01 Hy01
                         ltac:(lra)). lra.
        -- apply segment_mono; lra.
      * assert (x1 <= x') as Hx1 by lra.
        pose proof (interp_scan_bounds (x1 :: xp) (y1 :: fp) x'
                      ltac:(simpl in *; lia) Hxs Hfs Hx1) as [Hb _].
        simpl hd in Hb.
        destruct (Req_dec_T x x0) as [->|Hne]; [lra|].
        pose proof (segment_bounds x0 x1 y0 y1 x Hx01 Hy01
                      (conj Hx Hlt)). lra.
      * apply (IH (y1 :: fp)); [simpl in *; lia|done|done|simpl; lra|done].
Qed.

(** [np.interp] is non-decreasing in its argument when the knots
    increase and the values do not decrease. *)
Lemma interp_at_mono (xp fp : list R) x x' :
  length xp = length fp ->
  StronglySorted Rlt xp -> StronglySorted Rle fp ->
  x <= x' ->
  Np.interp_at xp fp x <= Np.interp_at xp fp x'.
Proof.
  intros Hlen Hxs Hfs Hxx. unfold Np.interp_at.
  assert (hd 0 fp <= List.last fp 0) as Hends.
  { destruct fp as [|y fp]; [simpl; lra|].
    apply StronglySorted_le_last; [done|]. apply elem_of_cons. by left. }
  assert (hd 0 xp <= List.last xp 0) as Hxends.
  { destruct xp as [|y xp]; [simpl; lra|].
    apply StronglySorted_le_last;
      [by apply StronglySorted_Rlt_Rle|]. apply elem_of_cons. by left. }
  destruct (Rlt_dec x (hd 0 xp)) as [Hlo|Hlo];
    destruct (Rlt_dec x' (hd 0 xp)) as [Hlo'|Hlo']; try lra.
  - destruct (Rlt_dec (List.last xp 0) x'); [done|].
    apply interp_scan_bounds; [done..|lra].
  - destruct (Rlt_dec (List.last xp 0) x) as [Hhi|Hhi];
      destruct (Rlt_dec (List.last xp 0) x') as [Hhi'|Hhi']; try lra.
    + apply interp_scan_bounds; [done..|lra].
    + apply interp_scan_mono; [done..|lra|done].
Qed.

End Interp.

(** ** Log-linear interpolation *)

Section Loglinear.

Local Open Scope R_scope.

Lemma StronglySorted_rev {A : Type} (RA : A -> A -> Prop) (l : list A) :
  StronglySorted RA l -> StronglySorted (flip RA) (rev l).
Proof.
  induction 1 as [|a l Hl IH Ha]; simpl; [constructor|].
  apply StronglySorted_app_2; [|done|repeat constructor].
  intros x1 x2 Hx1 Hx2. apply list_elem_of_singleton in Hx2 as ->.
  apply list_elem_of_In, in_rev, list_elem_of_In in Hx1.
  by apply (proj1 (Forall_forall _ _) Ha).
Qed.

(** At the knots the scan returns the values. *)
Lemma interp_scan_knots (xp fp : list R) :
  length xp = length fp -> StronglySorted Rlt xp ->
  map (fun x => Np.interp_scan x xp fp) xp = fp.
Proof.
  revert fp. induction xp as [|x0 xp IH]; intros fp Hlen Hxs.
  - by destruct fp.
  - destruct fp as [|y0 fp]; [done|].
    apply StronglySorted_inv in Hxs as [Hxs Hx0].
    destruct xp as [|x1 xp]; destruct fp as [|y1 fp]; [done..|].
    rewrite map_cons. f_equal.
    + rewrite interp_scan_cons2.
      apply Forall_cons in Hx0 as [Hx01 _].
      destruct (Rlt_dec x0 x1); [|lra]. by destruct (Req_dec_T x0 x0).
    + transitivity
        (map (fun x => Np.interp_scan x (x1 :: xp) (y1 :: fp)) (x1 :: xp));
        [|apply IH; [simpl in *; lia|done]].
      apply map_ext_in. intros x Hx. rewrite interp_scan_cons2.
      assert (x1 <= x) as Hle.
      { apply (StronglySorted_hd_le (x1 :: xp));
          [by apply StronglySorted_Rlt_Rle|by apply list_elem_of_In]. }
      destruct (Rlt_dec x x1); [lra|done].
Qed.

Lemma interp_at_knots (xp fp : list R) :
  length xp = length fp -> StronglySorted Rlt xp ->
  map (Np.interp_at xp fp) xp = fp.
Proof.
  intros Hlen Hxs.
  transitivity (map (fun x => Np.interp_scan x xp fp) xp);
    [|by apply interp_scan_knots].
  apply map_ext_in. intros x Hx. apply list_elem_of_In in Hx.
  pose proof (StronglySorted_Rlt_Rle _ Hxs) as Hle.
  pose proof (StronglySorted_hd_le xp x Hle Hx).
  pose proof (StronglySorted_le_last xp x Hle Hx).
  unfold Np.interp_at.
  destruct (Rlt_dec x (hd 0 xp)); [lra|].
  destruct (Rlt_dec (List.last xp 0) x); [lra|done].
Qed.

Lemma map_exp_ln (l : list R) : Forall (Rlt 0) l -> map exp (map ln l) = l.
Proof.
  induction 1 as [|x l Hx Hl IH]; simpl; [done|].
  by rewrite exp_ln, IH.
Qed.

(** Resampling a positive non-empty table to its own length gives the
    table back. *)
Lemma loglinear_interp_self (t_steps : list R) :
  t_steps <> [] -> Forall (Rlt 0) t_steps ->
  loglinear_interp t_steps (length t_steps) = Ok t_steps.
Proof.
  intros Hne Hpos. unfold loglinear_interp, Np.interp.
  pose proof (linspace_length 0 1 (length t_steps)) as Hlen.
  destruct (Np.linspace 0 1 (length t_steps)) as [|x0 xs] eqn:Hxs.
  { destruct t_steps; [done|discriminate Hlen]. }
  rewrite <- Hxs.
  assert (length (Np.linspace 0 1 (length t_steps))
          = length (map ln (rev t_steps))) as Hlen'.
  { by rewrite linspace_length, length_map, length_rev. }
  rewrite Hlen', Nat.eqb_refl. simpl.
  rewrite interp_at_knots; [|done|apply linspace_increasing; lra].
  rewrite map_exp_ln by (by apply Forall_rev).
  by rewrite rev_involutive.
Qed.

End Loglinear.

(** C7: resampling a table of positive values to its own length with the
    log-linear interpolation helper returns the table; tolerance is
    equality in the real-number model, and the helper is the same in each
    of the four generators that nest it. *)
Theorem loglinear_interp_idempotent (t_steps : list R) :
  t_steps <> [] ->
  Forall (Rlt 0) t_steps ->
  non_increasing t_steps ->
  loglinear_interp t_steps (length t_steps) = Ok t_steps /\
  loglinear_interp_GITS t_steps (length t_steps) = Ok t_steps /\
  loglinear_interp_11 t_steps (length t_steps) = Ok t_steps /\
  loglinear_interp_32 t_steps (length t_steps) = Ok t_steps.
Proof.
  intros Hne Hpos _.
  pose proof (loglinear_interp_self t_steps Hne Hpos) as H.
  repeat split; exact H.
Qed.

Lemma loglinear_interp_idempotent_witness :
  loglinear_interp [4; 1]%R 2 = Ok [4; 1]%R /\
  loglinear_interp_GITS [4; 1]%R 2 = Ok [4; 1]%R /\
  loglinear_interp_11 [4; 1]%R 2 = Ok [4; 1]%R /\
  loglinear_interp_32 [4; 1]%R 2 = Ok [4; 1]%R.
Proof.
  apply (loglinear_interp_idempotent [4; 1]%R).
  - discriminate.
  - repeat constructor; lra.
  - unfold non_increasing. repeat constructor; lra.
Defined.

(** ** The align-your-steps generators *)

Section AlignYourSteps.

Local Open Scope R_scope.

Lemma StronglySorted_map_in {A B : Type} (RA : A -> A -> Prop)
    (RB : B -> B -> Prop) (f : A -> B) (l : list A) :
  (forall a a', a ∈ l -> a' ∈ l -> RA a a' -> RB (f a) (f a')) ->
  StronglySorted RA l -> StronglySorted RB (map f l).
Proof.
  intros Hf Hs. induction Hs as [|a l Hl IH Ha]; simpl; constructor.
  - apply IH. intros x y Hx Hy. apply Hf; apply elem_of_cons; by right.
  - apply Forall_map, Forall_forall. intros a' Ha'. apply Hf.
    + apply elem_of_cons. by left.
    + apply elem_of_cons. by right.
    + by apply (proj1 (Forall_forall _ _) Ha).
Qed.

Lemma non_increasing_app_zero (l : list R) :
  Forall (Rlt 0) l -> non_increasing l -> non_increasing (l ++ [0]).
Proof.
  intros Hpos Hs. apply StronglySorted_app_2; [|done|repeat constructor].
  intros x1 x2 Hx1 Hx2. apply list_elem_of_singleton in Hx2 as ->.
  apply Rlt_le. by apply (proj1 (Forall_forall _ _) Hpos).
Qed.

(** The logs of the reversed table do not decrease. *)
Lemma logs_of_reversed_sorted (t_steps : list R) :
  Forall (Rlt 0) t_steps -> non_increasing t_steps ->
  StronglySorted Rle (map ln (rev t_steps)).
Proof.
  intros Hpos Hs.
  apply (StronglySorted_map_in Rle Rle); [|by apply StronglySorted_rev in Hs].
  intros a a' Ha _ Hle. apply list_elem_of_In, in_rev, list_elem_of_In in Ha.
  destruct Hle as [Hlt| ->]; [|lra].
  apply Rlt_le, ln_increasing; [|done].
  by apply (proj1 (Forall_forall _ _) Hpos).
Qed.

(** On a non-empty table of positive non-increasing values the helper
    returns [num_steps] positive non-increasing values. *)
Lemma loglinear_interp_shape (t_steps : list R) (num_steps : nat) :
  t_steps <> [] -> Forall (Rlt 0) t_steps -> non_increasing t_steps ->
  exists r, loglinear_interp t_steps num_steps = Ok r /\
            length r = num_steps /\ Forall (Rlt 0) r /\ non_increasing r.
Proof.
  intros Hne Hpos Hs. unfold loglinear_interp, Np.interp.
  pose proof (linspace_length 0 1 (length t_steps)) as Hlen.
  destruct (Np.linspace 0 1 (length t_steps)) as [|x0 xs] eqn:Hxs.
  { destruct t_steps; [done|discriminate Hlen]. }
  rewrite <- Hxs.
  assert (length (Np.linspace 0 1 (length t_steps))
          = length (map ln (rev t_steps))) as Hlen'.
  { by rewrite linspace_length, length_map, length_rev. }
  rewrite Hlen', Nat.eqb_refl. simpl. eexists. split; [reflexivity|].
  split; [|split].
  - by rewrite length_rev, !length_map, linspace_length.
  - apply Forall_rev, Forall_map, Forall_map, Forall_forall.
    intros x _. apply exp_pos.
  - unfold non_increasing.
    apply (StronglySorted_rev Rle).
    apply (StronglySorted_map Rle Rle).
    { intros a a' [Hlt| ->]; [|lra]. by apply Rlt_le, exp_increasing. }
    apply (StronglySorted_map Rle Rle).
    { intros a a' Hle. apply interp_at_mono; [done| |by apply logs_of_reversed_sorted|done].
      apply linspace_increasing. lra. }
    apply StronglySorted_Rlt_Rle, linspace_increasing. lra.
Qed.

Ltac table_facts :=
  repeat match goal with
         | |- Forall _ _ => constructor
         | |- StronglySorted _ _ => constructor
         | |- non_increasing _ => unfold non_increasing
         | |- _ /\ _ => split
         | |- (_ < _)%R => lra
         | |- (_ <= _)%R => lra
         end.

Lemma ays_table_sdxl_facts :
  Forall (Rlt 0) ays_table_sdxl /\ non_increasing ays_table_sdxl.
Proof. unfold ays_table_sdxl. table_facts. Qed.

Lemma ays_table_sd15_facts :
  Forall (Rlt 0) ays_table_sd15 /\ non_increasing ays_table_sd15.
Proof. unfold ays_table_sd15. table_facts. Qed.

(** The default generator returns, for every [n], [n + 1] values that
    never increase. *)
Lemma get_align_your_steps_sigmas_returns (sh : Shared) (n : nat)
    (sigma_min sigma_max : R) :
  exists out,
    get_align_your_steps_sigmas sh n sigma_min sigma_max = Ok out /\
    length out = (n + 1)%nat /\ non_increasing out.
Proof.
  unfold get_align_your_steps_sigmas.
  set (table := if is_sdxl sh then ays_table_sdxl else ays_table_sd15).
  assert (length table = 11%nat) as Hlen
    by (unfold table; by destruct (is_sdxl sh)).
  assert (Forall (Rlt 0) table /\ non_increasing table) as [Hpos Hs].
  { unfold table. destruct (is_sdxl sh);
      [apply ays_table_sdxl_facts|apply ays_table_sd15_facts]. }
  assert (table <> []) as Hne by (intros H; by rewrite H in Hlen).
  rewrite Hlen. destruct (n =? 11)%nat eqn:Hn; simpl.
  - apply Nat.eqb_eq in Hn as ->. exists (table ++ [0]).
    split; [done|]. split; [by rewrite length_app, Hlen|].
    by apply non_increasing_app_zero.
  - destruct (loglinear_interp_shape table n Hne Hpos Hs)
      as (r & -> & Hr & Hrpos & Hrs).
    simpl. exists (r ++ [0]). split; [done|].
    split; [rewrite length_app, Hr; simpl; lia|].
    by apply non_increasing_app_zero.
Qed.

End AlignYourSteps.

(** C4: when [n] is the length of the fixed table (11) the output of
    [get_align_your_steps_sigmas] is that table followed by [0.0]; for
    every [n] (so also when [n] differs from 11) the generator returns
    [n + 1] values that never increase. *)
Theorem get_align_your_steps_sigmas_shape (sh : Shared) (n : nat)
    (sigma_min sigma_max : R) :
  let table := if is_sdxl sh then ays_table_sdxl else ays_table_sd15 in
  length table = 11%nat /\
  get_align_your_steps_sigmas sh 11 sigma_min sigma_max = Ok (table ++ [0%R]) /\
  exists out,
    get_align_your_steps_sigmas sh n sigma_min sigma_max = Ok out /\
    length out = (n + 1)%nat /\ non_increasing out.
Proof.
  intros table.
  assert (length table = 11%nat) as Hlen
    by (unfold table; by destruct (is_sdxl sh)).
  split; [exact Hlen|]. split.
  - unfold get_align_your_steps_sigmas. fold table. by rewrite Hlen.
  - apply get_align_your_steps_sigmas_returns.
Qed.

(** ** The custom align-your-steps generator *)

Lemma mapM_raises {A B : Type} (f : A -> result B) (l : list A) :
  Exists (fun x => exists e, f x = Raise e) l -> exists e, mapM f l = Raise e.
Proof.
  induction l as [|a l IH]; intros H; [by apply Exists_nil in H|].
  simpl. destruct (f a) as [b|e] eqn:Hfa; [|by exists e].
  apply Exists_cons in H as [[e He]|H]; [congruence|].
  destruct (IH H) as [e ->]. by exists e.
Qed.

(** A piece rejected by [float] makes the parsing steps raise. *)
Lemma parse_custom_sigmas_raises (py_float : string -> option R) (s : string) :
  Exists (fun x => py_float (Py.strip Py.is_space x) = None)
         (Py.split "," (Py.strip Py.is_bracket s)) ->
  exists e, parse_custom_sigmas py_float s = Raise e.
Proof.
  intros H. apply mapM_raises. eapply Exists_impl; [exact H|].
  intros x Hx. simpl in Hx. rewrite Hx. by exists ValueError.
Qed.

(** C5: when some comma-separated piece of the configured string is not
    accepted by [float] (as in "[1,2,abc]"), [get_sigmas_ays_custom]
    raises nothing and returns what [get_align_your_steps_sigmas] returns
    for the same [n], [sigma_min] and [sigma_max]. *)
Theorem get_sigmas_ays_custom_fallback (py_float : string -> option R)
    (sh : Shared) (n : nat) (sigma_min sigma_max : R) :
  Exists (fun x => py_float (Py.strip Py.is_space x) = None)
         (Py.split "," (Py.strip Py.is_bracket (ays_custom_sigmas (opts sh)))) ->
  get_sigmas_ays_custom py_float sh n sigma_min sigma_max
  = get_align_your_steps_sigmas sh n sigma_min sigma_max /\
  exists out, get_sigmas_ays_custom py_float sh n sigma_min sigma_max = Ok out.
Proof.
  intros Hbad.
  destruct (parse_custom_sigmas_raises py_float _ Hbad) as [e He].
  assert (get_sigmas_ays_custom py_float sh n sigma_min sigma_max
          = get_align_your_steps_sigmas sh n sigma_min sigma_max) as Heq.
  { unfold get_sigmas_ays_custom. by rewrite He. }
  split; [exact Heq|]. rewrite Heq.
  destruct (get_align_your_steps_sigmas_returns sh n sigma_min sigma_max)
    as (out & Hout & _).
  by exists out.
Qed.

Lemma get_sigmas_ays_custom_fallback_witness :
  get_sigmas_ays_custom decimal_float (example_shared "[1,2,abc]") 5 0.03 14.6
  = get_align_your_steps_sigmas (example_shared "[1,2,abc]") 5 0.03 14.6 /\
  exists out,
    get_sigmas_ays_custom decimal_float (example_shared "[1,2,abc]") 5 0.03 14.6
    = Ok out.
Proof.
  apply (get_sigmas_ays_custom_fallback decimal_float
           (example_shared "[1,2,abc]") 5 0.03 14.6).
  apply Exists_cons_tl, Exists_cons_tl, Exists_cons_hd. reflexivity.
Defined.

Lemma linear_resample_ok (values : list R) (k : nat) :
  values <> [] ->
  linear_resample values k
  = Ok (map (Np.interp_at (Np.linspace 0 1 (length values)) values)
            (Np.linspace 0 1 k)).
Proof.
  intros Hne. unfold linear_resample, Np.interp.
  pose proof (linspace_length 0 1 (length values)) as Hlen.
  destruct (Np.linspace 0 1 (length values)) as [|x0 xs] eqn:Hxs.
  { destruct values; [done|discriminate Hlen]. }
  by rewrite Hlen, Nat.eqb_refl.
Qed.

(** With a parsed list of another length than [n], the custom generator
    interpolates the parsed values linearly, as they stand. *)
Lemma get_sigmas_ays_custom_parsed (py_float : string -> option R)
    (sh : Shared) (n : nat) (sigma_min sigma_max : R) (parsed : list R) :
  parse_custom_sigmas py_float (ays_custom_sigmas (opts sh)) = Ok parsed ->
  n <> length parsed ->
  parsed <> [] ->
  get_sigmas_ays_custom py_float sh n sigma_min sigma_max
  = Ok (map (Np.interp_at (Np.linspace 0 1 (length parsed)) parsed)
            (Np.linspace 0 1 n) ++ [0%R]).
Proof.
  intros Hparse Hn Hne. unfold get_sigmas_ays_custom. rewrite Hparse. simpl.
  apply Nat.eqb_neq in Hn. rewrite Hn. simpl.
  fold (linear_resample parsed n). by rewrite linear_resample_ok.
Qed.

(** The parsing steps never give an empty list. *)
Lemma parse_custom_sigmas_nonempty (py_float : string -> option R) s parsed :
  parse_custom_sigmas py_float s = Ok parsed -> parsed <> [].
Proof.
  unfold parse_custom_sigmas.
  assert (Py.split "," (Py.strip Py.is_bracket s) <> []) as Hne.
  { generalize (Py.strip Py.is_bracket s). intros t.
    destruct t as [|c t]; simpl; [done|].
    destruct (Ascii.eqb c ","); [done|]. by destruct (Py.split "," t). }
  destruct (Py.split "," (Py.strip Py.is_bracket s)) as [|x xs]; [done|].
  simpl. destruct (py_float (Py.strip Py.is_space x)); simpl; [|done].
  destruct (mapM _ xs); simpl; [|done]. intros H; by injection H as <-.
Qed.

Section UnitInterval.

Local Open Scope R_scope.

Lemma linspace_0_1_2 : Np.linspace 0 1 2 = [0; 1].
Proof. unfold Np.linspace. simpl. f_equal; [lra|]. f_equal. lra. Qed.

Lemma linspace_0_1_3 : Np.linspace 0 1 3 = [0; 1 / 2; 1].
Proof.
  unfold Np.linspace. simpl. f_equal; [lra|]. f_equal; [lra|]. f_equal. lra.
Qed.

(** Interpolation between two values over the knots [0] and [1]. *)
Lemma interp_at_unit a b x :
  0 <= x <= 1 -> Np.interp_at [0; 1] [a; b] x = a + (b - a) * x.
Proof.
  intros [Hlo Hhi]. unfold Np.interp_at. simpl hd. simpl List.last.
  destruct (Rlt_dec x 0); [lra|]. destruct (Rlt_dec 1 x); [lra|].
  rewrite interp_scan_cons2.
  destruct (Rlt_dec x 1).
  - destruct (Req_dec_T x 0) as [->|]; [lra|]. field.
  - simpl. assert (x = 1) as -> by lra. lra.
Qed.

End UnitInterval.

(** What the siblings of the custom variant do: whenever [n] differs from
    the table length, each of the four table variants returns the
    log-linear resampling of its table followed by [0.0], and so does the
    custom variant when it falls back to the default table. *)
Lemma ays_siblings_loglinear (py_float : string -> option R) (sh : Shared)
    (n : nat) (sigma_min sigma_max : R) :
  (n <> 11%nat ->
   get_align_your_steps_sigmas sh n sigma_min sigma_max
   = (let! r := spec_loglinear_resample
                  (if is_sdxl sh then ays_table_sdxl else ays_table_sd15) n in
      Ok (r ++ [0%R])) /\
   get_align_your_steps_sigmas_GITS sh n sigma_min sigma_max
   = (let! r := spec_loglinear_resample
                  (if is_sdxl sh then gits_table_sdxl else gits_table_sd15) n in
      Ok (r ++ [0%R])) /\
   ays_11_sigmas sh n sigma_min sigma_max
   = (let! r := spec_loglinear_resample
                  (if is_sdxl sh then ays_table_sdxl else ays_table_sd15) n in
      Ok (r ++ [0%R]))) /\
  (n <> 32%nat ->
   ays_32_sigmas sh n sigma_min sigma_max
   = (let! r := spec_loglinear_resample
                  (if is_sdxl sh then ays_32_table_sdxl else ays_32_table_sd15)
                  n in
      Ok (r ++ [0%R]))) /\
  (n <> 11%nat ->
   forall e,
     parse_custom_sigmas py_float (ays_custom_sigmas (opts sh)) = Raise e ->
     get_sigmas_ays_custom py_float sh n sigma_min sigma_max
     = (let! r := spec_loglinear_resample
                    (if is_sdxl sh then ays_table_sdxl else ays_table_sd15) n in
        Ok (r ++ [0%R]))).
Proof.
  assert (forall t k, spec_loglinear_resample t k = loglinear_interp t k) as Hspec.
  { intros t k. unfold spec_loglinear_resample, linear_resample,
      loglinear_interp. by rewrite length_map, length_rev. }
  assert (n <> 11%nat ->
          get_align_your_steps_sigmas sh n sigma_min sigma_max
          = (let! r := spec_loglinear_resample
                         (if is_sdxl sh then ays_table_sdxl else ays_table_sd15)
                         n in
             Ok (r ++ [0%R]))) as Hdefault.
  { intros H11. apply Nat.eqb_neq in H11.
    unfold get_align_your_steps_sigmas. rewrite Hspec.
    destruct (is_sdxl sh); simpl length; rewrite H11; reflexivity. }
  split; [|split].
  - intros H11. split; [by apply Hdefault|].
    apply Nat.eqb_neq in H11. split.
    + unfold get_align_your_steps_sigmas_GITS. rewrite Hspec.
      destruct (is_sdxl sh); simpl length; rewrite H11; reflexivity.
    + unfold ays_11_sigmas. rewrite Hspec.
      destruct (is_sdxl sh); simpl length; rewrite H11; reflexivity.
  - intros H32. apply Nat.eqb_neq in H32.
    unfold ays_32_sigmas. rewrite Hspec.
    destruct (is_sdxl sh); simpl length; rewrite H32; reflexivity.
  - intros H11 e Hparse. rewrite <- (Hdefault H11).
    unfold get_sigmas_ays_custom. by rewrite Hparse.
Qed.

Lemma parse_custom_sigmas_4_1 :
  parse_custom_sigmas decimal_float "[4,1]" = Ok [4 / 1; 1 / 1]%R.
Proof. vm_compute. reflexivity. Qed.

(** C3: the custom variant at the configured string "[4,1]" and [n = 3].
    The string parses to a list of two values; the three values the
    generator returns before the terminator are not the log-linear
    resampling of that list: the middle one is [2.5], where log-linear
    resampling gives a value whose square is [4]. *)
Lemma ays_custom_not_loglinear :
  let sh := example_shared "[4,1]" in
  parse_custom_sigmas decimal_float (ays_custom_sigmas (opts sh))
  = Ok [4 / 1; 1 / 1]%R /\
  exists out r,
    get_sigmas_ays_custom decimal_float sh 3 0.03 14.6 = Ok (out ++ [0%R]) /\
    spec_loglinear_resample [4 / 1; 1 / 1]%R 3 = Ok r /\
    nth 1 out 0%R = (5 / 2)%R /\
    (nth 1 r 0 * nth 1 r 0 = 4)%R /\
    out <> r.
Proof.
  intros sh.
  assert (parse_custom_sigmas decimal_float (ays_custom_sigmas (opts sh))
          = Ok [4 / 1; 1 / 1]%R) as Hparse by exact parse_custom_sigmas_4_1.
  split; [exact Hparse|].
  pose proof (get_sigmas_ays_custom_parsed decimal_float sh 3 0.03 14.6
                [4 / 1; 1 / 1]%R Hparse ltac:(simpl; lia) ltac:(done)) as Hout.
  assert (spec_loglinear_resample [4 / 1; 1 / 1]%R 3
          = Ok (rev (map exp
                  (map (Np.interp_at (Np.linspace 0 1 2)
                          [ln (1 / 1); ln (4 / 1)]%R)
                       (Np.linspace 0 1 3))))) as Hr.
  { unfold spec_loglinear_resample. by rewrite linear_resample_ok. }
  simpl length in Hout.
  rewrite linspace_0_1_2, linspace_0_1_3 in Hout, Hr.
  simpl map in Hout, Hr.
  rewrite !interp_at_unit in Hout, Hr by lra.
  simpl rev in Hr.
  match type of Hout with _ = Ok (?o ++ _) => set (out := o) in * end.
  match type of Hr with _ = Ok ?o => set (r := o) in * end.
  exists out, r. split; [exact Hout|]. split; [exact Hr|].
  assert (nth 1 out 0%R = (5 / 2)%R) as H1 by (unfold out; simpl; lra).
  assert (forall y, (exp y * exp y = exp (2 * y))%R) as Hsq.
  { intros y. rewrite <- exp_plus. f_equal. lra. }
  assert ((1 / 1 = 1)%R /\ (4 / 1 = 4)%R) as [E1 E4] by (split; lra).
  assert ((nth 1 r 0 * nth 1 r 0 = 4)%R) as H2.
  { unfold r. simpl. rewrite Hsq, E1, E4, ln_1.
    replace (2 * (0 + (ln 4 - 0) * (1 / 2)))%R with (ln 4) by lra.
    apply exp_ln. lra. }
  split; [exact H1|]. split; [exact H2|].
  intros Heq. rewrite <- Heq, H1 in H2. lra.
Qed.

(** ** The closed-form generators at [n = 1] *)

Lemma pow_half (x : R) : (0 < x)%R -> Py.pow x 0.5 = sqrt x.
Proof.
  intros Hx. unfold Py.pow. destruct (Rlt_dec 0 x); [|done].
  replace 0.5%R with (/ 2)%R by lra. by apply Rpower_sqrt.
Qed.

(** C8: with [n = 1] the cosine, cosine-exponential-blend and phi
    generators take their special case: the schedule is the single value
    [sqrt sigma_max], followed by the terminator [0.0] that each of them
    appends for every [n]; the blend, which can raise for other [n],
    returns here. *)
Theorem single_step_special_case (sh : Shared) (sigma_min sigma_max : R) :
  (0 < sigma_max)%R ->
  cosine_scheduler sh 1 sigma_min sigma_max = [sqrt sigma_max; 0%R] /\
  cosexpblend_scheduler sh 1 sigma_min sigma_max
  = Ok [sqrt sigma_max; 0%R] /\
  phi_scheduler sh 1 sigma_min sigma_max = [sqrt sigma_max; 0%R].
Proof.
  intros Hmax.
  unfold cosine_scheduler, cosexpblend_scheduler, phi_scheduler. simpl.
  by rewrite pow_half.
Qed.

Lemma single_step_special_case_witness :
  cosine_scheduler (example_shared "") 1 1 4 = [sqrt 4; 0%R] /\
  cosexpblend_scheduler (example_shared "") 1 1 4 = Ok [sqrt 4; 0%R] /\
  phi_scheduler (example_shared "") 1 1 4 = [sqrt 4; 0%R].
Proof. apply (single_step_special_case (example_shared "") 1 4). lra. Defined.

(** ** The beta generator *)

Section Beta.

Local Open Scope R_scope.

Lemma rint_le (r : R) (k : Z) : r <= IZR k -> (Np.rint r <= k)%Z.
Proof.
  intros Hr. unfold Np.rint, frac_part.
  destruct (base_Int_part r) as [Hlo Hhi].
  assert (Int_part r <= k)%Z as Hf by (apply le_IZR; lra).
  assert (1 / 2 <= r - IZR (Int_part r) -> (Int_part r + 1 <= k)%Z) as Hup.
  { intros Hd. assert (Int_part r < k)%Z by (apply lt_IZR; lra). lia. }
  destruct (Rlt_dec (r - IZR (Int_part r)) (1 / 2)); [done|].
  destruct (Rlt_dec (1 / 2) (r - IZR (Int_part r))); [apply Hup; lra|].
  destruct (Z.even (Int_part r)); [done|apply Hup; lra].
Qed.

Lemma rint_ge (r : R) (k : Z) : IZR k <= r -> (k <= Np.rint r)%Z.
Proof.
  intros Hr. unfold Np.rint, frac_part.
  destruct (base_Int_part r) as [Hlo Hhi].
  assert (k < Int_part r + 1)%Z as Hf.
  { apply lt_IZR. rewrite plus_IZR. lra. }
  destruct (Rlt_dec (r - IZR (Int_part r)) (1 / 2)); [lia|].
  destruct (Rlt_dec (1 / 2) (r - IZR (Int_part r))); [lia|].
  destruct (Z.even (Int_part r)); lia.
Qed.

Lemma index_in_range (l : list R) (i : Z) :
  (0 <= i < Z.of_nat (length l))%Z -> exists x, Py.index l i = Ok x.
Proof.
  intros [Hlo Hhi]. unfold Py.index.
  destruct (Z.ltb_spec i 0); [lia|].
  destruct (Z.leb_spec 0 i); [|lia].
  destruct (Z.ltb_spec i (Z.of_nat (length l))); [|lia]. simpl.
  destruct (nth_error l (Z.to_nat i)) as [x|] eqn:Hnth; [by exists x|].
  apply nth_error_None in Hnth. lia.
Qed.

(** With every index in range the loop returns, adding at most one
    value per index. *)
Lemma beta_loop_returns (table : list R) (ts : list Z) (last_t : Z)
    (sigs : list R) :
  Forall (fun t => (0 <= t < Z.of_nat (length table))%Z) ts ->
  exists out, beta_loop table ts last_t sigs = Ok out /\
              (length out <= length sigs + length ts)%nat.
Proof.
  intros Hts. revert last_t sigs.
  induction Hts as [|t ts Ht Hts IH]; intros last_t sigs; simpl.
  - exists sigs. split; [done|lia].
  - destruct (negb (t =? last_t)%Z).
    + destruct (index_in_range table t Ht) as [v ->]. simpl.
      destruct (IH t (sigs ++ [v])) as (out & -> & Hlen).
      exists out. split; [done|]. rewrite length_app in Hlen. simpl in Hlen. lia.
    + destruct (IH t sigs) as (out & -> & Hlen).
      exists out. split; [done|]. lia.
Qed.

End Beta.

(** C9: for [n >= 1], a non-empty table of the inner model and a quantile
    function with values in [0,1], [beta_scheduler] returns at most
    [n + 1] values, the last of which is [0.0]. *)
Theorem beta_scheduler_shape (beta_ppf : R -> R -> R -> R) (sh : Shared)
    (n : nat) (sigma_min sigma_max : R) (inner_model : InnerModel) :
  (1 <= n)%nat ->
  sigmas inner_model <> [] ->
  (forall q, (0 < q <= 1)%R ->
             (0 <= beta_ppf q (beta_dist_alpha (opts sh))
                             (beta_dist_beta (opts sh)) <= 1)%R) ->
  exists sigs,
    beta_scheduler beta_ppf sh n sigma_min sigma_max inner_model
    = Ok (sigs ++ [0%R]) /\
    (length (sigs ++ [0%R]) <= n + 1)%nat.
Proof.
  intros Hn Hne Hppf. unfold beta_scheduler.
  set (table := sigmas inner_model) in *.
  set (total := (Z.of_nat (length table) - 1)%Z).
  assert (0 <= total)%Z as Htotal.
  { unfold total. destruct table; [done|]. simpl length. lia. }
  match goal with
  | |- context [beta_loop table ?l _ _] => set (ts := l)
  end.
  assert (length ts = n) as Hlen.
  { unfold ts. by rewrite !length_map, linspace_open_length. }
  assert (Forall (fun t => (0 <= t < Z.of_nat (length table))%Z) ts) as Hts.
  { unfold ts. apply Forall_map, Forall_map, Forall_map, Forall_forall.
    intros i Hi. apply elem_of_seq in Hi. simpl.
    assert (0 < INR n)%R as Hn0 by (apply lt_0_INR; lia).
    assert (0 <= INR i)%R as Hi0 by apply pos_INR.
    assert (INR i < INR n)%R as Hin by (apply lt_INR; lia).
    assert (0 <= INR i * ((1 - 0) / INR n) < 1)%R as [Hq0 Hq1].
    { replace (INR i * ((1 - 0) / INR n))%R with (INR i / INR n)%R
        by (field; lra).
      split.
      - apply Rmult_le_pos; [done|]. apply Rlt_le. by apply Rinv_0_lt_compat.
      - apply (Rmult_lt_reg_r (INR n)); [done|].
        replace (INR i / INR n * INR n)%R with (INR i) by (field; lra). lra. }
    specialize (Hppf (1 - (0 + INR i * ((1 - 0) / INR n)))%R ltac:(lra)).
    assert (0 <= IZR total)%R as HT by (by apply IZR_le).
    split.
    - apply rint_ge. simpl. nra.
    - apply Z.le_lt_trans with total; [|unfold total; lia].
      apply rint_le. nra. }
  destruct (beta_loop_returns table ts (-1)%Z [] Hts) as (out & -> & Hout).
  simpl. exists out. split; [done|].
  rewrite length_app. simpl in *. lia.
Qed.

Lemma beta_scheduler_shape_witness :
  exists sigs,
    beta_scheduler uniform_ppf (example_shared "") 4 0.03 14.6
                   example_inner_model
    = Ok (sigs ++ [0%R]) /\
    (length (sigs ++ [0%R]) <= 4 + 1)%nat.
Proof.
  apply (beta_scheduler_shape uniform_ppf (example_shared "") 4 0.03 14.6
           example_inner_model).
  - lia.
  - discriminate.
  - intros q Hq. unfold uniform_ppf. lra.
Defined.

(** ** Shape of the self-contained generators *)

Section SelfContained.

Local Open Scope R_scope.

Variables (sh : Shared) (n : nat) (sigma_min sigma_max : R).
Hypothesis Hn : (1 <= n)%nat.
Hypothesis Hsigma : 0 < sigma_min < sigma_max.

Lemma linspace_cons a b : exists tl, Np.linspace a b n = a :: tl.
Proof. destruct n as [|m]; [lia|]. apply linspace_head. Qed.






(** The wrapper around the exponential schedule with its shrink factor. *)
Lemma get_sigmas_exponential_shape :
  exists pre, get_sigmas_exponential sh n sigma_min sigma_max = pre ++ [0] /\
              length pre = n /\ hd 0 (pre ++ [0]) = sigma_max.
Proof.
  unfold get_sigmas_exponential, Sampling.append_zero.
  eexists. split; [reflexivity|]. split.
  - rewrite length_zip_with, !length_map, !linspace_length. lia.
  - destruct (linspace_cons (ln sigma_max) (ln sigma_min)) as [tl ->].
    destruct (linspace_cons 0 1) as [tl' ->]. simpl.
    rewrite Rmult_0_r, exp_0, exp_ln; lra.
Qed.

Lemma kl_optimal_shape :
  exists pre, kl_optimal n sigma_min sigma_max = pre ++ [sigma_min] /\
              length pre = n /\ hd 0 (pre ++ [sigma_min]) = sigma_max.
Proof.
  unfold kl_optimal. rewrite seq_app, !map_app. simpl.
  assert (0 < INR n) as Hn0 by (apply lt_0_INR; lia).
  eexists. split; [f_equal; f_equal|split].
  - replace (INR n / INR n) with 1 by (field; lra).
    replace (1 * atan sigma_min + (1 - 1) * atan sigma_max)
      with (atan sigma_min) by lra.
    apply tan_atan.
  - by rewrite !length_map, length_seq.
  - destruct n as [|m]; [lia|]. rewrite <- cons_seq. cbn [map hd app].
    change (INR 0) with 0.
    replace (0 / INR (S m) * atan sigma_min
             + (1 - 0 / INR (S m)) * atan sigma_max)
      with (atan sigma_max) by (field; lra).
    apply tan_atan.
Qed.









End SelfContained.

Lemma loglinear_interp_ok (t_steps : list R) (num_steps : nat) :
  t_steps <> [] ->
  exists r, loglinear_interp t_steps num_steps = Ok r /\ length r = num_steps.
Proof.
  intros Hne. unfold loglinear_interp.
  fold (linear_resample (map ln (rev t_steps)) num_steps).
  replace (length t_steps) with (length (map ln (rev t_steps)))
    by (by rewrite length_map, length_rev).
  fold (linear_resample (map ln (rev t_steps)) num_steps).
  rewrite linear_resample_ok.
  - simpl. eexists. split; [reflexivity|].
    by rewrite length_rev, !length_map, linspace_length.
  - intros H. apply (f_equal length) in H.
    rewrite length_map, length_rev in H. by destruct t_steps.
Qed.

(** The common body of the four table variants. *)
Lemma table_variant_shape (table : list R) (n : nat) :
  table <> [] ->
  exists pre,
    (if negb (n =? length table)%nat
     then let! r := loglinear_interp table n in Ok (r ++ [0%R])
     else Ok (table ++ [0%R])) = Ok (pre ++ [0%R]) /\
    length pre = n.
Proof.
  intros Hne. destruct (n =? length table)%nat eqn:E; simpl.
  - apply Nat.eqb_eq in E. by exists table.
  - destruct (loglinear_interp_ok table n Hne) as (r & -> & Hr). by exists r.
Qed.








(** * Further properties of the generators *)

(** ** Ends of [linspace] *)

Lemma linspace_ends (a b : R) (n : nat) :
  (2 <= n)%nat ->
  exists mid, Np.linspace a b n = a :: mid ++ [b] /\ length mid = (n - 2)%nat.
Proof.
  intros Hn. destruct n as [|[|m]]; [lia..|].
  unfold Np.linspace. rewrite seq_S, <- cons_seq, map_app, map_cons.
  exists (map (fun i => (a + INR i * ((b - a) / INR (S (S m) - 1)))%R) (seq 1 m)).
  split.
  - rewrite <- app_comm_cons. f_equal; [simpl INR; lra|]. f_equal.
    cbn [map]. f_equal.
    replace (S (S m) - 1)%nat with (0 + S m)%nat by lia.
    assert (0 < INR (0 + S m))%R by (apply lt_0_INR; lia).
    field. lra.
  - rewrite length_map, length_seq. lia.
Qed.

(** ** The derivative helper *)

(** X1: [to_d] returns one value per element, and stepping [x] along the
    derivative down to noise level zero gives [denoised] back. *)
Theorem to_d_step_to_zero (x denoised : list R) (sigma : R) :
  sigma <> 0%R ->
  length x = length denoised ->
  length (to_d x sigma denoised) = length x /\
  zip_with (fun xi di => (xi + di * (0 - sigma))%R) x (to_d x sigma denoised)
  = denoised.
Proof.
  intros Hsigma. unfold to_d. revert denoised.
  induction x as [|xi x IH]; intros [|di denoised] Hlen; try discriminate Hlen.
  - done.
  - simpl in Hlen. injection Hlen as Hlen. destruct (IH denoised Hlen) as [Hl Hz].
    simpl. split; [by rewrite Hl|]. rewrite Hz. f_equal. field. done.
Qed.

Lemma to_d_step_to_zero_witness :
  length (to_d [3; 5]%R 2 [1; 1]%R) = length [3; 5]%R /\
  zip_with (fun xi di => (xi + di * (0 - 2))%R) [3; 5]%R
           (to_d [3; 5]%R 2 [1; 1]%R)
  = [1; 1]%R.
Proof. apply (to_d_step_to_zero [3; 5]%R [1; 1]%R 2); [lra|reflexivity]. Defined.

(** ** The registry build on any list *)

Lemma dict_of_pairs_last_with (key : Scheduler -> string) (l : list Scheduler) k :
  dict_of_pairs (map (fun x => (key x, x)) l) !! k = last_with key k l.
Proof.
  unfold dict_of_pairs, last_with.
  induction l as [|a l IH] using rev_ind; [apply lookup_empty|].
  rewrite map_app, foldl_app, rev_app_distr. simpl.
  destruct (String.eqb_spec (key a) k) as [->|Hne].
  - apply lookup_insert_eq.
  - rewrite lookup_insert_ne by done. apply IH.
Qed.

(** X2: on any list of schedulers, the built map resolves a key to the
    last scheduler with that label and, when no label matches, to the last
    scheduler with that name; a key that is neither is not found. *)
Theorem build_schedulers_map_lookup (l : list Scheduler) (k : string) :
  build_schedulers_map l !! k
  = match last_with label k l with
    | Some d => Some d
    | None => last_with name k l
    end.
Proof.
  unfold build_schedulers_map, dict_merge.
  rewrite lookup_union, !dict_of_pairs_last_with.
  destruct (last_with label k l), (last_with name k l); reflexivity.
Qed.

(** ** The generators that resample timesteps of the inner model *)

Lemma removelast_linspace_length (a b : R) (n : nat) :
  length (removelast (Np.linspace a b (n + 1))) = n.
Proof.
  rewrite removelast_firstn_len, length_take, linspace_length. lia.
Qed.

(** X3: [sgm_uniform] computes what [normal_scheduler] computes in its
    [sgm] mode: [n] values followed by [0.0]. *)
Theorem sgm_uniform_is_normal_sgm (n : nat) (sigma_min sigma_max : R)
    (inner_model : InnerModel) :
  sgm_uniform n sigma_min sigma_max inner_model
  = normal_scheduler n sigma_min sigma_max inner_model true /\
  exists pre,
    sgm_uniform n sigma_min sigma_max inner_model = pre ++ [0%R] /\
    length pre = n.
Proof.
  split; [reflexivity|]. unfold sgm_uniform. eexists. split; [reflexivity|].
  by rewrite length_map, removelast_linspace_length.
Qed.

(** X4: when the conversions of the inner model are inverse to each other
    and [n >= 2], [normal_scheduler] (not in [sgm] mode) starts at
    [sigma_max], reaches [sigma_min] at its last step and ends with [0.0],
    [n + 1] values in all. *)
Theorem normal_scheduler_ends (n : nat) (sigma_min sigma_max : R)
    (inner_model : InnerModel) :
  (2 <= n)%nat ->
  (forall s, t_to_sigma inner_model (sigma_to_t inner_model s) = s) ->
  exists mid,
    normal_scheduler n sigma_min sigma_max inner_model false
    = sigma_max :: mid ++ [sigma_min; 0%R] /\
    length mid = (n - 2)%nat.
Proof.
  intros Hn Hinv. unfold normal_scheduler.
  destruct (linspace_ends (sigma_to_t inner_model sigma_max)
              (sigma_to_t inner_model sigma_min) n Hn) as (mid & -> & Hmid).
  exists (map (t_to_sigma inner_model) mid). split.
  - rewrite map_cons, map_app. simpl. rewrite !Hinv.
    by rewrite <- app_assoc.
  - by rewrite length_map.
Qed.

Lemma normal_scheduler_ends_witness :
  exists mid,
    normal_scheduler 3 0.03 14.6 example_inner_model false
    = 14.6%R :: mid ++ [0.03%R; 0%R] /\
    length mid = (3 - 2)%nat.
Proof.
  apply (normal_scheduler_ends 3 0.03 14.6 example_inner_model).
  - lia.
  - reflexivity.
Defined.

(** ** The generators that index the table of the inner model *)

Lemma mapM_returns {A B : Type} (f : A -> result B) (P : B -> Prop)
    (l : list A) :
  Forall (fun x => exists y, f x = Ok y /\ P y) l ->
  exists ys, mapM f l = Ok ys /\ length ys = length l /\ Forall P ys.
Proof.
  induction 1 as [|x l (y & Hy & HP) Hl (ys & Hys & Hlen & HPs)]; simpl.
  - by exists [].
  - rewrite Hy, Hys. simpl. exists (y :: ys). split; [done|].
    split; [by rewrite <- Hlen|by constructor].
Qed.

(** Indexing from the end, within range. *)
Lemma index_from_end (l : list R) (k : Z) :
  (0 <= k < Z.of_nat (length l))%Z ->
  exists x, Py.index l (- (1 + k))%Z = Ok x /\ x ∈ l /\
            (k = 0%Z -> x = List.last l 0%R).
Proof.
  intros [Hlo Hhi]. unfold Py.index.
  destruct (Z.ltb_spec (- (1 + k)) 0); [|lia].
  destruct (Z.leb_spec 0 (- (1 + k) + Z.of_nat (length l))); [|lia].
  destruct (Z.ltb_spec (- (1 + k) + Z.of_nat (length l))
              (Z.of_nat (length l))); [|lia].
  simpl.
  destruct (nth_error l (Z.to_nat (- (1 + k) + Z.of_nat (length l))))
    as [x|] eqn:Hnth; [|apply nth_error_None in Hnth; lia].
  exists x. split; [done|]. split.
  - apply list_elem_of_In. by apply nth_error_In in Hnth.
  - intros ->.
    replace (Z.to_nat (- (1 + 0) + Z.of_nat (length l)))
      with (length l - 1)%nat in Hnth by lia.
    destruct l as [|y l] using rev_ind; [simpl in *; lia|].
    rewrite last_last. rewrite length_app in Hnth. simpl in Hnth.
    replace (length l + 1 - 1)%nat with (length l) in Hnth by lia.
    rewrite nth_error_app2 in Hnth by lia.
    rewrite Nat.sub_diag in Hnth. simpl in Hnth. by injection Hnth as <-.
Qed.

Lemma int_of_scaled_index (x n len : nat) :
  (x < n)%nat -> (1 <= len)%nat ->
  (0 <= Py.int (INR x * (INR len / INR n)) < Z.of_nat len)%Z /\
  (x = 0%nat -> Py.int (INR x * (INR len / INR n)) = 0%Z).
Proof.
  intros Hx Hlen.
  assert (0 < INR n)%R as Hn by (apply lt_0_INR; lia).
  assert (0 <= INR x)%R as Hx0 by apply pos_INR.
  assert (INR x < INR n)%R as Hxn by (by apply lt_INR).
  assert (0 < INR len)%R as Hl0 by (apply lt_0_INR; lia).
  set (r := (INR x * (INR len / INR n))%R).
  assert (r = INR len * (INR x / INR n))%R as Hr by (unfold r; field; lra).
  assert (0 <= INR x / INR n < 1)%R as [Hq0 Hq1].
  { split.
    - apply Rmult_le_pos; [done|]. by apply Rlt_le, Rinv_0_lt_compat.
    - apply (Rmult_lt_reg_r (INR n)); [done|].
      replace (INR x / INR n * INR n)%R with (INR x) by (field; lra). lra. }
  assert (0 <= r)%R as Hr0 by (rewrite Hr; apply Rmult_le_pos; lra).
  unfold Py.int. destruct (Rle_dec 0 r); [|done].
  destruct (base_Int_part r) as [Hlo Hhi].
  split; [split|].
  - assert (-1 < Int_part r)%Z; [|lia]. apply lt_IZR. lra.
  - apply lt_IZR. rewrite <- INR_IZR_INZ. nra.
  - intros ->. symmetry. apply Int_part_spec.
    unfold r. simpl INR. lra.
Qed.

(** X5: [simple_scheduler] raises [ZeroDivisionError] for [n = 0]; for
    [n >= 1] and a non-empty table it returns [n] entries of the table,
    the first of them the last entry of the table, followed by [0.0]. *)
Theorem simple_scheduler_shape (n : nat) (sigma_min sigma_max : R)
    (inner_model : InnerModel) :
  (1 <= n)%nat ->
  sigmas inner_model <> [] ->
  simple_scheduler 0 sigma_min sigma_max inner_model = Raise ZeroDivisionError /\
  exists pre,
    simple_scheduler n sigma_min sigma_max inner_model = Ok (pre ++ [0%R]) /\
    length pre = n /\
    Forall (fun v => v ∈ sigmas inner_model) pre /\
    hd 0%R pre = List.last (sigmas inner_model) 0%R.
Proof.
  intros Hn Hne. split; [reflexivity|]. unfold simple_scheduler.
  destruct (Nat.eqb_spec n 0) as [->|_]; [lia|].
  set (table := sigmas inner_model) in *.
  set (f := fun x : nat =>
              Py.index table
                (- (1 + Py.int (INR x * (INR (length table) / INR n))))%Z).
  assert (forall x, (x < n)%nat ->
            exists v, f x = Ok v /\ v ∈ table /\
                      (x = 0%nat -> v = List.last table 0%R)) as Hf.
  { intros x Hx.
    assert (1 <= length table)%nat as Hlen1.
    { destruct table; [done|simpl; lia]. }
    destruct (int_of_scaled_index x n (length table) Hx Hlen1) as [Hr H0].
    destruct (index_from_end table _ Hr) as (v & Hv & Hin & Hlast).
    exists v. split; [exact Hv|]. split; [exact Hin|].
    intros Hx0. apply Hlast. by apply H0. }
  destruct n as [|m]; [lia|]. rewrite <- cons_seq.
  destruct (Hf 0%nat ltac:(lia)) as (v0 & Hv0 & Hin0 & Hlast0).
  destruct (mapM_returns f (fun v => v ∈ table) (seq 1 m))
    as (ys & Hys & Hlen & Hall).
  { apply Forall_forall. intros x Hx. apply elem_of_seq in Hx.
    destruct (Hf x ltac:(lia)) as (v & Hv & Hin & _). by exists v. }
  change (mapM _ (0%nat :: seq 1 m))
    with (let! b := f 0%nat in let! bs := mapM f (seq 1 m) in Ok (b :: bs)).
  rewrite Hv0, Hys. simpl. exists (v0 :: ys). split; [done|].
  split; [simpl; rewrite Hlen, length_seq; done|].
  split; [by constructor|]. simpl. by apply Hlast0.
Qed.

Lemma simple_scheduler_shape_witness :
  simple_scheduler 0 0.03 14.6 example_inner_model = Raise ZeroDivisionError /\
  exists pre,
    simple_scheduler 2 0.03 14.6 example_inner_model = Ok (pre ++ [0%R]) /\
    length pre = 2%nat /\
    Forall (fun v => v ∈ sigmas example_inner_model) pre /\
    hd 0%R pre = List.last (sigmas example_inner_model) 0%R.
Proof.
  apply (simple_scheduler_shape 2 0.03 14.6 example_inner_model).
  - lia.
  - discriminate.
Defined.

Lemma index_nat_in_range (l : list R) (x : nat) :
  (x < length l)%nat -> Py.index l (Z.of_nat x) = Ok (nth x l 0%R).
Proof.
  intros Hx. unfold Py.index.
  destruct (Z.ltb_spec (Z.of_nat x) 0); [lia|].
  destruct (Z.leb_spec 0 (Z.of_nat x)); [|lia].
  destruct (Z.ltb_spec (Z.of_nat x) (Z.of_nat (length l))); [|lia].
  simpl. rewrite Nat2Z.id.
  by rewrite (nth_error_nth' l 0%R Hx).
Qed.

(** The loop of [ddim_scheduler] in closed form: it picks the entries at
    [x], [x + ss], [x + 2 ss], ... below the length of the table. *)
Lemma ddim_loop_closed (fuel : nat) (table : list R) (ss x : nat)
    (sigs : list R) :
  (1 <= ss)%nat -> (length table <= fuel + x)%nat ->
  ddim_loop fuel table ss x sigs
  = Ok (sigs ++ map (fun k => nth (x + k * ss) table 0%R)
                    (seq 0 ((length table - x + ss - 1) / ss))).
Proof.
  intros Hss. revert x sigs.
  induction fuel as [|fuel IH]; intros x sigs Hlen.
  - simpl. replace (length table - x + ss - 1)%nat with (ss - 1)%nat by lia.
    rewrite Nat.div_small by lia. simpl. by rewrite app_nil_r.
  - cbn [ddim_loop]. destruct (Nat.ltb_spec x (length table)) as [Hlt|Hge].
    + rewrite index_nat_in_range by done. simpl.
      rewrite IH by lia.
      assert ((length table - x + ss - 1) / ss
              = S ((length table - (x + ss) + ss - 1) / ss))%nat as ->.
      { destruct (Nat.le_gt_cases ss (length table - x)) as [Hbig|Hsmall].
        - replace (length table - x + ss - 1)%nat
            with ((length table - (x + ss) + ss - 1) + 1 * ss)%nat by lia.
          rewrite Nat.div_add by lia. lia.
        - replace (length table - (x + ss) + ss - 1)%nat with (ss - 1)%nat by lia.
          rewrite (Nat.div_small (ss - 1)) by lia.
          symmetry. apply (Nat.div_unique _ _ _ (length table - x - 1)); lia. }
      rewrite <- cons_seq, map_cons, <- app_assoc. simpl app.
      do 3 f_equal; [f_equal; lia|].
      rewrite <- seq_shift, map_map. apply map_ext. intros k. f_equal. lia.
    + replace (length table - x + ss - 1)%nat with (ss - 1)%nat by lia.
      rewrite Nat.div_small by lia. simpl. by rewrite app_nil_r.
Qed.

(** X6: [ddim_scheduler] raises [ZeroDivisionError] for [n = 0]; for
    [n >= 1] it returns, with the stride [ss = max (len // n) 1], the
    table entries at the indices [1], [1 + ss], [1 + 2 ss], ... in
    reverse order, followed by [0.0].  The entry at index 0 is never
    taken, and the number of values depends on the table length and the
    stride, not on [n] itself. *)
Theorem ddim_scheduler_closed_form (n : nat) (sigma_min sigma_max : R)
    (inner_model : InnerModel) :
  (1 <= n)%nat ->
  let table := sigmas inner_model in
  let ss := Nat.max (length table / n) 1 in
  let count := ((length table - 1 + ss - 1) / ss)%nat in
  ddim_scheduler 0 sigma_min sigma_max inner_model = Raise ZeroDivisionError /\
  ddim_scheduler n sigma_min sigma_max inner_model
  = Ok (rev (map (fun k => nth (1 + k * ss) table 0%R) (seq 0 count))
        ++ [0%R]) /\
  length (rev (map (fun k => nth (1 + k * ss) table 0%R) (seq 0 count))
          ++ [0%R]) = (count + 1)%nat.
Proof.
  intros Hn table ss count. split; [reflexivity|]. split.
  - unfold ddim_scheduler. destruct (Nat.eqb_spec n 0) as [->|_]; [lia|].
    fold table. fold ss.
    rewrite ddim_loop_closed by lia. reflexivity.
  - by rewrite length_app, length_rev, length_map, length_seq.
Qed.

Lemma ddim_scheduler_closed_form_witness :
  let table := sigmas example_inner_model in
  let ss := Nat.max (length table / 2) 1 in
  let count := ((length table - 1 + ss - 1) / ss)%nat in
  ddim_scheduler 0 0.03 14.6 example_inner_model = Raise ZeroDivisionError /\
  ddim_scheduler 2 0.03 14.6 example_inner_model
  = Ok (rev (map (fun k => nth (1 + k * ss) table 0%R) (seq 0 count))
        ++ [0%R]) /\
  length (rev (map (fun k => nth (1 + k * ss) table 0%R) (seq 0 count))
          ++ [0%R]) = (count + 1)%nat.
Proof. apply (ddim_scheduler_closed_form 2 0.03 14.6 example_inner_model). lia. Defined.

Lemma rint_IZR (k : Z) : Np.rint (IZR k) = k.
Proof.
  assert (Int_part (IZR k) = k) as H.
  { symmetry. apply Int_part_spec. lra. }
  unfold Np.rint, frac_part. rewrite H.
  destruct (Rlt_dec (IZR k - IZR k) (1 / 2)); [done|lra].
Qed.

(** X7: [turbo_scheduler] raises [ZeroDivisionError] for [n = 0]; for
    [n >= 1] it returns [n] values followed by [0.0], the first of them the
    model's sigma at timestep 999, and it reads the model's sigma function
    at timesteps from 0 to 999 only. *)
Theorem turbo_scheduler_shape (n : nat) (sigma_min sigma_max : R)
    (inner_model inner_model' : InnerModel) :
  (1 <= n)%nat ->
  (forall t, (0 <= t <= 999)%Z ->
             model_sampling_sigma inner_model t
             = model_sampling_sigma inner_model' t) ->
  turbo_scheduler 0 sigma_min sigma_max inner_model = Raise ZeroDivisionError /\
  (exists pre,
     turbo_scheduler n sigma_min sigma_max inner_model = Ok (pre ++ [0%R]) /\
     length pre = n /\
     hd 0%R pre = model_sampling_sigma inner_model 999) /\
  turbo_scheduler n sigma_min sigma_max inner_model
  = turbo_scheduler n sigma_min sigma_max inner_model'.
Proof.
  intros Hn Hagree. split; [reflexivity|]. unfold turbo_scheduler.
  destruct (Nat.eqb_spec n 0) as [->|_]; [lia|]. split.
  - eexists. split; [reflexivity|]. split.
    + by rewrite !length_map, length_rev, length_map, length_seq.
    + destruct n as [|m]; [lia|]. rewrite seq_S, map_app, rev_app_distr.
      cbn [map rev app hd].
      assert (0 < INR (1 + m))%R as Hpos by (apply lt_0_INR; lia).
      assert (1000.0 = 1000)%R as -> by lra.
      change (S m) with (1 + m)%nat.
      replace (INR (1 + m) * (1000 / INR (1 + m)) - 1)%R with (IZR 999)
        by (field; lra).
      by rewrite rint_IZR.
  - do 2 f_equal. apply map_ext_in. intros t Ht.
    apply in_map_iff in Ht as (r & <- & _). apply Hagree. lia.
Qed.

Lemma turbo_scheduler_shape_witness :
  turbo_scheduler 0 0.03 14.6 example_inner_model = Raise ZeroDivisionError /\
  (exists pre,
     turbo_scheduler 4 0.03 14.6 example_inner_model = Ok (pre ++ [0%R]) /\
     length pre = 4%nat /\
     hd 0%R pre = model_sampling_sigma example_inner_model 999) /\
  turbo_scheduler 4 0.03 14.6 example_inner_model
  = turbo_scheduler 4 0.03 14.6 example_inner_model.
Proof.
  apply (turbo_scheduler_shape 4 0.03 14.6 example_inner_model
           example_inner_model).
  - lia.
  - reflexivity.
Defined.

(** With every index in range, the loop of [beta_scheduler] only adds
    entries of the table, and adds one for an index that differs from the
    last one seen. *)
Lemma beta_loop_elements (table : list R) (ts : list Z) (last_t : Z)
    (sigs : list R) :
  Forall (fun t => (0 <= t < Z.of_nat (length table))%Z) ts ->
  Forall (fun v => v ∈ table) sigs ->
  exists out, beta_loop table ts last_t sigs = Ok out /\
              Forall (fun v => v ∈ table) out /\
              (length sigs <= length out)%nat /\
              (match ts with
               | t :: _ => t <> last_t -> (length sigs < length out)%nat
               | [] => True
               end).
Proof.
  intros Hts. revert last_t sigs.
  induction Hts as [|t ts Ht Hts IH]; intros last_t sigs Hsigs.
  - exists sigs. simpl. repeat split; [done|lia].
  - cbn [beta_loop]. destruct (Z.eqb_spec t last_t) as [->|Hne]; simpl.
    + destruct (IH last_t sigs Hsigs) as (out & -> & Hout & Hlen & _).
      exists out. repeat split; [done|done|]. done.
    + destruct (index_in_range table t Ht) as [v Hv]. rewrite Hv. simpl.
      assert (v ∈ table) as Hin.
      { unfold Py.index in Hv.
        destruct (Z.ltb_spec t 0); [lia|].
        destruct ((0 <=? t)%Z && (t <? Z.of_nat (length table))%Z); [|done].
        destruct (nth_error table (Z.to_nat t)) as [w|] eqn:Hnth; [|done].
        injection Hv as <-. apply list_elem_of_In. by apply nth_error_In in Hnth. }
      destruct (IH t (sigs ++ [v])) as (out & -> & Hout & Hlen & _).
      { apply Forall_app. split; [done|]. by constructor. }
      rewrite length_app in Hlen. simpl in Hlen.
      exists out. repeat split; [done|lia|]. intros _. lia.
Qed.

(** X8: under the conditions of the beta generator (n >= 1, non-empty
    table, quantiles in [0,1]) every value before the terminator is an
    entry of the table of the inner model, and there is at least one. *)
Theorem beta_scheduler_values (beta_ppf : R -> R -> R -> R) (sh : Shared)
    (n : nat) (sigma_min sigma_max : R) (inner_model : InnerModel) :
  (1 <= n)%nat ->
  sigmas inner_model <> [] ->
  (forall q, (0 < q <= 1)%R ->
             (0 <= beta_ppf q (beta_dist_alpha (opts sh))
                             (beta_dist_beta (opts sh)) <= 1)%R) ->
  exists sigs,
    beta_scheduler beta_ppf sh n sigma_min sigma_max inner_model
    = Ok (sigs ++ [0%R]) /\
    Forall (fun v => v ∈ sigmas inner_model) sigs /\
    (1 <= length sigs)%nat.
Proof.
  intros Hn Hne Hppf. unfold beta_scheduler.
  set (table := sigmas inner_model) in *.
  set (total := (Z.of_nat (length table) - 1)%Z).
  assert (0 <= total)%Z as Htotal.
  { unfold total. destruct table; [done|]. simpl length. lia. }
  match goal with
  | |- context [beta_loop table ?l _ _] => set (ts := l)
  end.
  assert (Forall (fun t => (0 <= t < Z.of_nat (length table))%Z) ts) as Hts.
  { unfold ts. apply Forall_map, Forall_map, Forall_map, Forall_forall.
    intros i Hi. apply elem_of_seq in Hi. simpl.
    assert (0 < INR n)%R as Hn0 by (apply lt_0_INR; lia).
    assert (0 <= INR i)%R as Hi0 by apply pos_INR.
    assert (INR i < INR n)%R as Hin by (apply lt_INR; lia).
    assert (0 <= INR i * ((1 - 0) / INR n) < 1)%R as [Hq0 Hq1].
    { replace (INR i * ((1 - 0) / INR n))%R with (INR i / INR n)%R
        by (field; lra).
      split.
      - apply Rmult_le_pos; [done|]. apply Rlt_le. by apply Rinv_0_lt_compat.
      - apply (Rmult_lt_reg_r (INR n)); [done|].
        replace (INR i / INR n * INR n)%R with (INR i) by (field; lra). lra. }
    specialize (Hppf (1 - (0 + INR i * ((1 - 0) / INR n)))%R ltac:(lra)).
    assert (0 <= IZR total)%R as HT by (by apply IZR_le).
    split.
    - apply rint_ge. simpl. nra.
    - apply Z.le_lt_trans with total; [|unfold total; lia].
      apply rint_le. nra. }
  destruct (beta_loop_elements table ts (-1)%Z [] Hts ltac:(constructor))
    as (out & -> & Hout & _ & Hfirst).
  simpl. exists out. split; [done|]. split; [done|].
  destruct ts as [|t ts'] eqn:Ets.
  - apply (f_equal length) in Ets. unfold ts in Ets.
    rewrite !length_map, linspace_open_length in Ets. simpl in Ets. lia.
  - apply Forall_cons in Hts as [Ht _]. simpl in Hfirst.
    assert (t <> (-1)%Z) as Hneq by lia. specialize (Hfirst Hneq). lia.
Qed.

Lemma beta_scheduler_values_witness :
  exists sigs,
    beta_scheduler uniform_ppf (example_shared "") 4 0.03 14.6
                   example_inner_model
    = Ok (sigs ++ [0%R]) /\
    Forall (fun v => v ∈ sigmas example_inner_model) sigs /\
    (1 <= length sigs)%nat.
Proof.
  apply (beta_scheduler_values uniform_ppf (example_shared "") 4 0.03 14.6
           example_inner_model).
  - lia.
  - discriminate.
  - intros q Hq. unfold uniform_ppf. lra.
Defined.

(** ** Ends of the resampled tables *)

(** Over the knots [linspace 0 1 m], [np.interp] takes the first value at
    0 and the last value at 1. *)
Lemma interp_at_unit_ends (fp : list R) :
  fp <> [] ->
  Np.interp_at (Np.linspace 0 1 (length fp)) fp 0 = hd 0%R fp /\
  Np.interp_at (Np.linspace 0 1 (length fp)) fp 1 = List.last fp 0%R.
Proof.
  intros Hne.
  pose proof (interp_at_knots (Np.linspace 0 1 (length fp)) fp
                (linspace_length 0 1 (length fp))
                (linspace_increasing 0 1 (length fp) ltac:(lra))) as Hk.
  destruct (le_lt_dec 2 (length fp)) as [H2|H1].
  - destruct (linspace_ends 0 1 (length fp) H2) as (mid & Hxs & _).
    rewrite Hxs in Hk at 2. rewrite map_cons, map_app in Hk. simpl in Hk.
    remember (Np.interp_at (Np.linspace 0 1 (length fp)) fp 0) as v0.
    remember (Np.interp_at (Np.linspace 0 1 (length fp)) fp 1) as v1.
    remember (map (Np.interp_at (Np.linspace 0 1 (length fp)) fp) mid) as vs.
    rewrite <- Hk. simpl hd. by rewrite app_comm_cons, last_last.
  - destruct fp as [|y [|z fp]]; [done| |simpl in H1; lia].
    simpl. unfold Np.interp_at. simpl.
    destruct (Rlt_dec 0 0); [lra|]. destruct (Rlt_dec 1 0); [lra|].
    by destruct (Rlt_dec 0 1); [|lra].
Qed.

(** The helper keeps the ends of a positive table when it resamples to two
    or more values, and returns the last entry alone for one value. *)
Lemma loglinear_interp_ends (t_steps : list R) (num_steps : nat) :
  t_steps <> [] -> Forall (Rlt 0) t_steps ->
  loglinear_interp t_steps 1 = Ok [List.last t_steps 0%R] /\
  ((2 <= num_steps)%nat ->
   exists mid,
     loglinear_interp t_steps num_steps
     = Ok (hd 0%R t_steps :: mid ++ [List.last t_steps 0%R]) /\
     length mid = (num_steps - 2)%nat).
Proof.
  intros Hne Hpos.
  assert (forall k, loglinear_interp t_steps k
                    = Ok (rev (map exp
                            (map (Np.interp_at
                                    (Np.linspace 0 1 (length (map ln (rev t_steps))))
                                    (map ln (rev t_steps)))
                                 (Np.linspace 0 1 k))))) as Hform.
  { intros k. unfold loglinear_interp.
    replace (length t_steps) with (length (map ln (rev t_steps)))
      by (by rewrite length_map, length_rev).
    fold (linear_resample (map ln (rev t_steps)) k).
    rewrite linear_resample_ok; [done|].
    intros H. apply (f_equal length) in H.
    rewrite length_map, length_rev in H. by destruct t_steps. }
  assert (map ln (rev t_steps) <> []) as Hne'.
  { intros H. apply (f_equal length) in H.
    rewrite length_map, length_rev in H. by destruct t_steps. }
  destruct (interp_at_unit_ends (map ln (rev t_steps)) Hne') as [H0 H1].
  assert (0 < hd 0 t_steps /\ 0 < List.last t_steps 0)%R as [Hhd Hlast].
  { destruct t_steps as [|a t] using rev_ind; [done|].
    rewrite last_last. apply Forall_app in Hpos as [Ht Ha].
    apply Forall_cons in Ha as [Ha _]. split; [|done].
    destruct t as [|b t]; [done|]. by apply Forall_cons in Ht as [Hb _]. }
  assert (exp (hd 0%R (map ln (rev t_steps))) = List.last t_steps 0%R) as E0.
  { destruct t_steps as [|a t] using rev_ind; [done|].
    rewrite rev_app_distr, last_last. simpl. rewrite last_last in Hlast.
    by apply exp_ln. }
  assert (exp (List.last (map ln (rev t_steps)) 0%R) = hd 0%R t_steps) as E1.
  { destruct t_steps as [|a t]; [done|]. simpl rev. rewrite map_app.
    simpl. rewrite last_last. by apply exp_ln. }
  split.
  - rewrite Hform. simpl. by rewrite H0, E0.
  - intros Hk. rewrite Hform.
    destruct (linspace_ends 0 1 num_steps Hk) as (mid & -> & Hmid).
    rewrite !map_cons, !map_app. simpl. rewrite H0, H1, E0, E1.
    rewrite rev_app_distr. simpl.
    eexists. split; [reflexivity|].
    by rewrite length_rev, !length_map.
Qed.

Ltac decimal_table :=
  repeat match goal with
         | |- Forall _ _ => constructor
         | |- StronglySorted _ _ => constructor
         | |- non_increasing _ => unfold non_increasing
         | |- _ /\ _ => split
         | |- (_ < _)%R => lra
         | |- (_ <= _)%R => lra
         end.

Lemma gits_table_sdxl_facts :
  Forall (Rlt 0) gits_table_sdxl /\ non_increasing gits_table_sdxl.
Proof. unfold gits_table_sdxl. decimal_table. Qed.

Lemma gits_table_sd15_facts :
  Forall (Rlt 0) gits_table_sd15 /\ non_increasing gits_table_sd15.
Proof. unfold gits_table_sd15. decimal_table. Qed.

Lemma ays_32_table_sdxl_facts :
  Forall (Rlt 0) ays_32_table_sdxl /\ non_increasing ays_32_table_sdxl.
Proof. unfold ays_32_table_sdxl. decimal_table. Qed.

Lemma ays_32_table_sd15_facts :
  Forall (Rlt 0) ays_32_table_sd15 /\ non_increasing ays_32_table_sd15.
Proof. unfold ays_32_table_sd15. decimal_table. Qed.

Lemma list_ends (l : list R) :
  (2 <= length l)%nat ->
  exists mid, l = hd 0%R l :: mid ++ [List.last l 0%R] /\
              length mid = (length l - 2)%nat.
Proof.
  intros Hl. destruct l as [|a l]; [simpl in Hl; lia|].
  destruct l as [|b l] using rev_ind; [simpl in Hl; lia|].
  exists l. rewrite app_comm_cons, last_last. split; [done|].
  simpl. rewrite length_app. simpl. lia.
Qed.

(** The common body of the four table variants, on a positive
    non-increasing table. *)
Lemma table_variant_full_shape (table : list R) (n : nat) :
  table <> [] -> Forall (Rlt 0) table -> non_increasing table ->
  exists out,
    (if negb (n =? length table)%nat
     then let! r := loglinear_interp table n in Ok (r ++ [0%R])
     else Ok (table ++ [0%R])) = Ok out /\
    length out = (n + 1)%nat /\ non_increasing out /\
    ((2 <= n)%nat ->
     exists mid, out = hd 0%R table :: mid ++ [List.last table 0%R; 0%R] /\
                 length mid = (n - 2)%nat).
Proof.
  intros Hne Hpos Hs. destruct (Nat.eqb_spec n (length table)) as [->|Hn]; simpl.
  - exists (table ++ [0%R]). split; [done|].
    split; [rewrite length_app; simpl; lia|].
    split; [by apply non_increasing_app_zero|].
    intros H2. destruct (list_ends table H2) as (mid & Hmid & Hlen).
    exists mid. split; [|done]. rewrite Hmid at 1.
    by rewrite app_comm_cons, <- app_assoc.
  - destruct (loglinear_interp_shape table n Hne Hpos Hs)
      as (r & Hr & Hlen & Hrpos & Hrs).
    rewrite Hr. simpl. exists (r ++ [0%R]). split; [done|].
    split; [rewrite length_app, Hlen; simpl; lia|].
    split; [by apply non_increasing_app_zero|].
    intros H2.
    destruct (proj2 (loglinear_interp_ends table n Hne Hpos) H2)
      as (mid & Hmid & Hmlen).
    rewrite Hmid in Hr. injection Hr as <-.
    exists mid. split; [|done]. by rewrite app_comm_cons, <- app_assoc.
Qed.

(** X9: the GITS and the 32-step variants behave like the default one.
    With [n] equal to the table length (11, 32) the output is the table
    followed by [0.0]; for every [n] it has [n + 1] values that never
    increase.  [ays_11_sigmas] is the default generator under another
    name. *)
Theorem ays_table_variants_shape (sh : Shared) (n : nat)
    (sigma_min sigma_max : R) :
  let gits := if is_sdxl sh then gits_table_sdxl else gits_table_sd15 in
  let t32 := if is_sdxl sh then ays_32_table_sdxl else ays_32_table_sd15 in
  get_align_your_steps_sigmas_GITS sh 11 sigma_min sigma_max
  = Ok (gits ++ [0%R]) /\
  ays_32_sigmas sh 32 sigma_min sigma_max = Ok (t32 ++ [0%R]) /\
  (exists out,
     get_align_your_steps_sigmas_GITS sh n sigma_min sigma_max = Ok out /\
     length out = (n + 1)%nat /\ non_increasing out) /\
  (exists out,
     ays_32_sigmas sh n sigma_min sigma_max = Ok out /\
     length out = (n + 1)%nat /\ non_increasing out) /\
  ays_11_sigmas sh n sigma_min sigma_max
  = get_align_your_steps_sigmas sh n sigma_min sigma_max.
Proof.
  intros gits t32.
  split.
  { unfold gits, get_align_your_steps_sigmas_GITS.
    destruct (is_sdxl sh); reflexivity. }
  split.
  { unfold t32, ays_32_sigmas. destruct (is_sdxl sh); reflexivity. }
  split; [|split; [|reflexivity]].
  - assert (gits <> [] /\ Forall (Rlt 0) gits /\ non_increasing gits)
      as (Hne & Hpos & Hs).
    { unfold gits. destruct (is_sdxl sh).
      - split; [done|apply gits_table_sdxl_facts].
      - split; [done|apply gits_table_sd15_facts]. }
    destruct (table_variant_full_shape gits n Hne Hpos Hs)
      as (out & Hout & Hlen & Hmono & _).
    exists out. split; [exact Hout|done].
  - assert (t32 <> [] /\ Forall (Rlt 0) t32 /\ non_increasing t32)
      as (Hne & Hpos & Hs).
    { unfold t32. destruct (is_sdxl sh).
      - split; [done|apply ays_32_table_sdxl_facts].
      - split; [done|apply ays_32_table_sd15_facts]. }
    destruct (table_variant_full_shape t32 n Hne Hpos Hs)
      as (out & Hout & Hlen & Hmono & _).
    exists out. split; [exact Hout|done].
Qed.

(** X10: resampling keeps the ends of the table.  For [n >= 2] the
    default, GITS and 32-step generators start at 14.615 and take the
    smallest table entry (0.029, 0.029, 0.015) at their last step before
    [0.0]; for [n = 1] the default generator returns that smallest entry
    alone, followed by [0.0]. *)
Theorem ays_table_variants_ends (sh : Shared) (n : nat)
    (sigma_min sigma_max : R) :
  (2 <= n)%nat ->
  get_align_your_steps_sigmas sh 1 sigma_min sigma_max
  = Ok [0.029%R; 0%R] /\
  (exists mid,
     get_align_your_steps_sigmas sh n sigma_min sigma_max
     = Ok (14.615%R :: mid ++ [0.029%R; 0%R]) /\ length mid = (n - 2)%nat) /\
  (exists mid,
     get_align_your_steps_sigmas_GITS sh n sigma_min sigma_max
     = Ok (14.615%R :: mid ++ [0.029%R; 0%R]) /\ length mid = (n - 2)%nat) /\
  (exists mid,
     ays_32_sigmas sh n sigma_min sigma_max
     = Ok (14.615%R :: mid ++ [0.015%R; 0%R]) /\ length mid = (n - 2)%nat).
Proof.
  intros Hn.
  assert (forall table hd_ last_,
            table <> [] -> Forall (Rlt 0) table -> non_increasing table ->
            hd 0%R table = hd_ -> List.last table 0%R = last_ ->
            exists mid,
              (if negb (n =? length table)%nat
               then let! r := loglinear_interp table n in Ok (r ++ [0%R])
               else Ok (table ++ [0%R]))
              = Ok (hd_ :: mid ++ [last_; 0%R]) /\
              length mid = (n - 2)%nat) as Hgen.
  { intros table hd_ last_ Hne Hpos Hs <- <-.
    destruct (table_variant_full_shape table n Hne Hpos Hs)
      as (out & Hout & _ & _ & Hends).
    destruct (Hends Hn) as (mid & -> & Hlen). by exists mid. }
  split; [|split; [|split]].
  - unfold get_align_your_steps_sigmas.
    destruct (is_sdxl sh); simpl negb; cbv iota.
    + rewrite (proj1 (loglinear_interp_ends ays_table_sdxl 1 ltac:(done)
                        (proj1 ays_table_sdxl_facts))). reflexivity.
    + rewrite (proj1 (loglinear_interp_ends ays_table_sd15 1 ltac:(done)
                        (proj1 ays_table_sd15_facts))). reflexivity.
  - unfold get_align_your_steps_sigmas. destruct (is_sdxl sh).
    + apply Hgen; [done|apply ays_table_sdxl_facts..|done|done].
    + apply Hgen; [done|apply ays_table_sd15_facts..|done|done].
  - unfold get_align_your_steps_sigmas_GITS. destruct (is_sdxl sh).
    + apply Hgen; [done|apply gits_table_sdxl_facts..|done|done].
    + apply Hgen; [done|apply gits_table_sd15_facts..|done|done].
  - unfold ays_32_sigmas. destruct (is_sdxl sh).
    + apply Hgen; [done|apply ays_32_table_sdxl_facts..|done|done].
    + apply Hgen; [done|apply ays_32_table_sd15_facts..|done|done].
Qed.

Lemma ays_table_variants_ends_witness :
  get_align_your_steps_sigmas (example_shared "") 1 0.03 14.6
  = Ok [0.029%R; 0%R] /\
  (exists mid,
     get_align_your_steps_sigmas (example_shared "") 5 0.03 14.6
     = Ok (14.615%R :: mid ++ [0.029%R; 0%R]) /\ length mid = (5 - 2)%nat) /\
  (exists mid,
     get_align_your_steps_sigmas_GITS (example_shared "") 5 0.03 14.6
     = Ok (14.615%R :: mid ++ [0.029%R; 0%R]) /\ length mid = (5 - 2)%nat) /\
  (exists mid,
     ays_32_sigmas (example_shared "") 5 0.03 14.6
     = Ok (14.615%R :: mid ++ [0.015%R; 0%R]) /\ length mid = (5 - 2)%nat).
Proof. apply (ays_table_variants_ends (example_shared "") 5 0.03 14.6). lia. Defined.

(** X11: what the custom generator does with a list it could parse.  A
    list of exactly [n] values is returned as it stands, followed by
    [0.0]; a list of another length is resampled to [n] values that start
    at its first value and, for [n >= 2], end at its last value; resampled
    to a single value ([n = 1]) it gives the first value of the list. *)
Theorem get_sigmas_ays_custom_values (py_float : string -> option R)
    (sh : Shared) (n : nat) (sigma_min sigma_max : R) (parsed : list R) :
  parse_custom_sigmas py_float (ays_custom_sigmas (opts sh)) = Ok parsed ->
  (n = length parsed ->
   get_sigmas_ays_custom py_float sh n sigma_min sigma_max
   = Ok (parsed ++ [0%R])) /\
  (n <> length parsed -> n = 1%nat ->
   get_sigmas_ays_custom py_float sh n sigma_min sigma_max
   = Ok [hd 0%R parsed; 0%R]) /\
  (n <> length parsed -> (2 <= n)%nat ->
   exists mid,
     get_sigmas_ays_custom py_float sh n sigma_min sigma_max
     = Ok (hd 0%R parsed :: mid ++ [List.last parsed 0%R; 0%R]) /\
     length mid = (n - 2)%nat).
Proof.
  intros Hparse.
  pose proof (parse_custom_sigmas_nonempty _ _ _ Hparse) as Hne.
  destruct (interp_at_unit_ends parsed Hne) as [H0 H1].
  split; [|split].
  - intros Hn. unfold get_sigmas_ays_custom. rewrite Hparse. simpl.
    apply Nat.eqb_eq in Hn. by rewrite Hn.
  - intros Hn ->.
    rewrite (get_sigmas_ays_custom_parsed _ _ _ _ _ parsed Hparse Hn Hne).
    simpl. by rewrite H0.
  - intros Hn H2.
    rewrite (get_sigmas_ays_custom_parsed _ _ _ _ _ parsed Hparse Hn Hne).
    destruct (linspace_ends 0 1 n H2) as (mid & -> & Hmid).
    rewrite map_cons, map_app. simpl. rewrite H0, H1.
    eexists. split; [by rewrite <- app_assoc|]. by rewrite length_map.
Qed.

Lemma get_sigmas_ays_custom_values_witness :
  (3%nat = length [4 / 1; 1 / 1]%R ->
   get_sigmas_ays_custom decimal_float (example_shared "[4,1]") 3 0.03 14.6
   = Ok ([4 / 1; 1 / 1]%R ++ [0%R])) /\
  (3%nat <> length [4 / 1; 1 / 1]%R -> 3%nat = 1%nat ->
   get_sigmas_ays_custom decimal_float (example_shared "[4,1]") 3 0.03 14.6
   = Ok [hd 0%R [4 / 1; 1 / 1]%R; 0%R]) /\
  (3%nat <> length [4 / 1; 1 / 1]%R -> (2 <= 3)%nat ->
   exists mid,
     get_sigmas_ays_custom decimal_float (example_shared "[4,1]") 3 0.03 14.6
     = Ok (hd 0%R [4 / 1; 1 / 1]%R
           :: mid ++ [List.last [4 / 1; 1 / 1]%R 0%R; 0%R]) /\
     length mid = (3 - 2)%nat).
Proof.
  apply (get_sigmas_ays_custom_values decimal_float (example_shared "[4,1]")
           3 0.03 14.6 [4 / 1; 1 / 1]%R).
  vm_compute. reflexivity.
Defined.

(** ** The closed-form generators *)

(** X12: for [n >= 1] and [sigma_min < sigma_max] the values of
    [kl_optimal] strictly decrease, from [sigma_max] down to
    [sigma_min]. *)
Theorem kl_optimal_decreasing (n : nat) (sigma_min sigma_max : R) :
  (1 <= n)%nat ->
  (sigma_min < sigma_max)%R ->
  strictly_decreasing (kl_optimal n sigma_min sigma_max) /\
  hd 0%R (kl_optimal n sigma_min sigma_max) = sigma_max /\
  List.last (kl_optimal n sigma_min sigma_max) 0%R = sigma_min.
Proof.
  intros Hn Hsigma. split.
  - unfold kl_optimal, strictly_decreasing. rewrite map_map.
    apply (StronglySorted_map_in lt); [|apply seq_StronglySorted].
    intros i j Hi Hj Hij.
    apply elem_of_seq in Hi, Hj.
    assert (0 < INR n)%R as Hn0 by (apply lt_0_INR; lia).
    assert (0 <= INR i)%R as Hi0 by apply pos_INR.
    assert (INR i < INR j)%R as Hlt by (by apply lt_INR).
    assert (INR j <= INR n)%R as Hjn by (apply le_INR; lia).
    pose proof (atan_increasing _ _ Hsigma) as Hatan.
    pose proof (atan_bound sigma_min) as [Hlo _].
    pose proof (atan_bound sigma_max) as [_ Hhi].
    set (qi := (INR i / INR n)%R). set (qj := (INR j / INR n)%R).
    assert (0 <= qi /\ qi < qj /\ qj <= 1)%R as (Hqi & Hqij & Hqj).
    { unfold qi, qj. split; [|split].
      - apply Rmult_le_pos; [done|]. by apply Rlt_le, Rinv_0_lt_compat.
      - apply Rmult_lt_compat_r; [by apply Rinv_0_lt_compat|done].
      - apply (Rmult_le_reg_r (INR n)); [done|].
        replace (INR j / INR n * INR n)%R with (INR j) by (field; lra). lra. }
    apply tan_increasing; nra.
  - destruct (kl_optimal_shape n sigma_min sigma_max Hn) as (pre & Hpre & _ & Hhd).
    rewrite Hpre. split; [exact Hhd|]. apply last_last.
Qed.

Lemma kl_optimal_decreasing_witness :
  strictly_decreasing (kl_optimal 3 1 2) /\
  hd 0%R (kl_optimal 3 1 2) = 2%R /\
  List.last (kl_optimal 3 1 2) 0%R = 1%R.
Proof. apply (kl_optimal_decreasing 3 1 2); [lia|lra]. Defined.

(** X13: for [n >= 2] and positive bounds, the exponential schedule with
    shrink factor starts at [sigma_max] and takes
    [sigma_min * exp shrink_factor] at its last step before [0.0]. *)
Theorem get_sigmas_exponential_ends (sh : Shared) (n : nat)
    (sigma_min sigma_max : R) :
  (2 <= n)%nat ->
  (0 < sigma_min)%R -> (0 < sigma_max)%R ->
  exists mid,
    get_sigmas_exponential sh n sigma_min sigma_max
    = sigma_max
      :: mid ++ [(sigma_min * exp (exponential_shrink_factor (opts sh)))%R;
                 0%R] /\
    length mid = (n - 2)%nat.
Proof.
  intros Hn Hmin Hmax. unfold get_sigmas_exponential, Sampling.append_zero.
  destruct (linspace_ends (ln sigma_max) (ln sigma_min) n Hn)
    as (m1 & -> & Hm1).
  destruct (linspace_ends 0 1 n Hn) as (m2 & -> & Hm2).
  rewrite !map_cons, !map_app. simpl map.
  cbn [zip_with].
  rewrite zip_with_app by (by rewrite !length_map, Hm1, Hm2).
  simpl zip_with at 2.
  rewrite !exp_ln by done. rewrite Rmult_0_r, exp_0, Rmult_1_r, Rmult_1_r.
  rewrite <- app_comm_cons, <- app_assoc. cbn [app].
  eexists. split; [reflexivity|].
  rewrite length_zip_with, !length_map. lia.
Qed.

Lemma get_sigmas_exponential_ends_witness :
  exists mid,
    get_sigmas_exponential (example_shared "") 3 0.03 14.6
    = 14.6%R
      :: mid
         ++ [(0.03 * exp (exponential_shrink_factor
                            (opts (example_shared ""))))%R; 0%R] /\
    length mid = (3 - 2)%nat.
Proof.
  apply (get_sigmas_exponential_ends (example_shared "") 3 0.03 14.6);
    [lia|lra|lra].
Defined.

Lemma Rpower_one_base (y : R) : Rpower 1 y = 1%R.
Proof. unfold Rpower. rewrite ln_1, Rmult_0_r. apply exp_0. Qed.

Lemma pow_one_base (y : R) : Py.pow 1 y = 1%R.
Proof.
  unfold Py.pow. destruct (Rlt_dec 0 1); [apply Rpower_one_base|lra].
Qed.

Lemma pow_positive (x y : R) : (0 < x)%R -> Py.pow x y = Rpower x y.
Proof. intros Hx. unfold Py.pow. by destruct (Rlt_dec 0 x). Qed.

(** X14: the three generators of the sinusoidal family return exactly [n]
    values, with no terminator.  For [n >= 2] and
    [0 < sigma_min < sigma_max] each of them starts at [sigma_max] and
    ends at [sigma_max * (sigma_min / sigma_max) ^ sf] for its own
    factor [sf]. *)
Theorem sinusoidal_family_shape (sh : Shared) (n : nat)
    (sigma_min sigma_max : R) :
  (2 <= n)%nat ->
  (0 < sigma_min < sigma_max)%R ->
  let last_value sf := (Rpower (sigma_min / sigma_max) sf * sigma_max)%R in
  (exists mid,
     get_sigmas_sinusoidal_sf sh n sigma_min sigma_max
     = sigma_max :: mid ++ [last_value (sinusoidal_sf_factor (opts sh))] /\
     length mid = (n - 2)%nat) /\
  (exists mid,
     get_sigmas_invcosinusoidal_sf sh n sigma_min sigma_max
     = sigma_max :: mid ++ [last_value (invcosinusoidal_sf_factor (opts sh))] /\
     length mid = (n - 2)%nat) /\
  (exists mid,
     get_sigmas_react_cosinusoidal_dynsf sh n sigma_min sigma_max
     = sigma_max
       :: mid ++ [last_value (react_cosinusoidal_dynsf_factor (opts sh))] /\
     length mid = (n - 2)%nat).
Proof.
  intros Hn Hsigma last_value.
  assert (0 < sigma_min / sigma_max)%R as Hq.
  { apply Rdiv_lt_0_compat; lra. }
  assert (0 < INR n)%R as Hn0 by (apply lt_0_INR; lia).
  destruct (linspace_ends 0 1 n Hn) as (mid & Hxs & Hmid).
  split; [|split].
  - unfold get_sigmas_sinusoidal_sf. rewrite Hxs.
    rewrite !map_cons, !map_app. cbn [map].
    replace (PI / 2 * 0)%R with 0%R by lra.
    replace (PI / 2 * 1)%R with (PI / 2)%R by lra.
    rewrite sin_0, sin_PI2.
    replace ((sigma_min + (sigma_max - sigma_min) * (1 - 0)) / sigma_max)%R
      with 1%R by (field; lra).
    replace ((sigma_min + (sigma_max - sigma_min) * (1 - 1)) / sigma_max)%R
      with (sigma_min / sigma_max)%R by (field; lra).
    rewrite pow_one_base, pow_positive by done. rewrite Rmult_1_l.
    eexists. split; [reflexivity|]. by rewrite !length_map.
  - unfold get_sigmas_invcosinusoidal_sf. rewrite Hxs.
    rewrite !map_cons, !map_app. cbn [map].
    rewrite Rmult_0_l, Rmult_1_l, cos_0, cos_PI.
    assert (0.5 = 1 / 2)%R as -> by lra.
    replace ((sigma_min + (sigma_max - sigma_min) * (1 / 2 * (1 + 1)))
             / sigma_max)%R with 1%R by (field; lra).
    replace ((sigma_min + (sigma_max - sigma_min) * (1 / 2 * (-1 + 1)))
             / sigma_max)%R with (sigma_min / sigma_max)%R by (field; lra).
    rewrite pow_one_base, pow_positive by done. rewrite Rmult_1_l.
    eexists. split; [reflexivity|]. by rewrite !length_map.
  - unfold get_sigmas_react_cosinusoidal_dynsf. rewrite Hxs.
    rewrite !map_cons, !map_app. cbn [map zip_with].
    rewrite zip_with_app by (by rewrite !length_map).
    rewrite map_app. cbn [map zip_with].
    rewrite Rmult_0_l, Rmult_1_l, cos_0, cos_PI2.
    replace ((sigma_min + (sigma_max - sigma_min) * 1) / sigma_max)%R
      with 1%R by (field; lra).
    replace ((sigma_min + (sigma_max - sigma_min) * 0) / sigma_max)%R
      with (sigma_min / sigma_max)%R by (field; lra).
    replace (INR n * 1 / INR n)%R with 1%R by (field; lra).
    rewrite Rmult_1_r.
    rewrite pow_one_base, pow_positive by done. rewrite Rmult_1_l.
    eexists. split; [reflexivity|].
    by rewrite length_map, length_zip_with, !length_map, Nat.min_id.
Qed.

Lemma sinusoidal_family_shape_witness :
  let sh := example_shared "" in
  let last_value sf := (Rpower (1 / 2) sf * 2)%R in
  (exists mid,
     get_sigmas_sinusoidal_sf sh 3 1 2
     = 2%R :: mid ++ [last_value (sinusoidal_sf_factor (opts sh))] /\
     length mid = (3 - 2)%nat) /\
  (exists mid,
     get_sigmas_invcosinusoidal_sf sh 3 1 2
     = 2%R :: mid ++ [last_value (invcosinusoidal_sf_factor (opts sh))] /\
     length mid = (3 - 2)%nat) /\
  (exists mid,
     get_sigmas_react_cosinusoidal_dynsf sh 3 1 2
     = 2%R :: mid ++ [last_value (react_cosinusoidal_dynsf_factor (opts sh))] /\
     length mid = (3 - 2)%nat).
Proof.
  intros sh.
  apply (sinusoidal_family_shape sh 3 1 2); [lia|lra].
Defined.

Lemma seq_ends (n : nat) :
  (2 <= n)%nat -> seq 0 n = 0%nat :: seq 1 (n - 2) ++ [(n - 1)%nat].
Proof.
  intros Hn. destruct n as [|[|m]]; [lia..|].
  rewrite <- cons_seq. f_equal. rewrite seq_S. do 2 f_equal; lia.
Qed.

Lemma pow_zero_base (y : R) : y <> 0%R -> Py.pow 0 y = 0%R.
Proof.
  intros Hy. unfold Py.pow. destruct (Rlt_dec 0 0); [lra|].
  by destruct (Req_dec_T y 0).
Qed.

(** The cosine easing at both ends of the ramp. *)
Lemma cosine_easing_ends (sigma_min sigma_max : R) :
  (sigma_min + 0.5 * (sigma_max - sigma_min)
               * (1 - cos (PI * (1 - Py.pow 0 0.5))))%R = sigma_max /\
  (sigma_min + 0.5 * (sigma_max - sigma_min)
               * (1 - cos (PI * (1 - Py.pow 1 0.5))))%R = sigma_min.
Proof.
  rewrite pow_zero_base by lra. rewrite pow_one_base.
  replace (PI * (1 - 0))%R with PI by lra.
  replace (PI * (1 - 1))%R with 0%R by lra.
  rewrite cos_PI, cos_0. split; lra.
Qed.



(** The loop of [cosexpblend_scheduler] in closed form: at its [k]-th
    step [E] has been multiplied [k] times by [K]. *)
Lemma cosexpblend_loop_closed (n : nat) (sigma_min sigma_max K : R)
    (xs : list nat) (E : R) (acc : list R) :
  cosexpblend_loop n sigma_min sigma_max K xs E acc
  = acc ++ imap (fun k x =>
                   let p := (INR x / INR (n - 1))%R in
                   let C := (sigma_min
                             + 0.5 * (sigma_max - sigma_min)
                               * (1 - cos (PI * (1 - Py.pow p 0.5))))%R in
                   (C + p * (E * K ^ k - C))%R) xs.
Proof.
  revert E acc. induction xs as [|x xs IH]; intros E acc.
  - simpl. by rewrite app_nil_r.
  - cbn [cosexpblend_loop]. rewrite IH, imap_cons, <- app_assoc. cbn [app].
    do 2 f_equal.
    + cbn zeta. f_equal. f_equal. simpl. lra.
    + apply imap_ext. intros k y _. cbn zeta. unfold compose.
      do 2 f_equal. simpl pow. lra.
Qed.

(** X16: for [n >= 2] and a positive decay the cosine-exponential blend
    starts at [sigma_max] and takes [sigma_max * decay] at its last step
    before [0.0]: the blend ends on the decayed exponential, not on
    [sigma_min]. *)
Theorem cosexpblend_scheduler_ends (sh : Shared) (n : nat)
    (sigma_min sigma_max : R) :
  (2 <= n)%nat ->
  (0 < cosexpblend_exp_decay (opts sh))%R ->
  exists mid,
    cosexpblend_scheduler sh n sigma_min sigma_max
    = Ok (sigma_max
          :: mid ++ [(sigma_max * cosexpblend_exp_decay (opts sh))%R; 0%R]) /\
    length mid = (n - 2)%nat.
Proof.
  intros Hn Hdecay. unfold cosexpblend_scheduler.
  destruct (Nat.eqb_spec n 1) as [->|_]; [lia|].
  assert (IZR (Z.of_nat n - 1) = INR (n - 1)) as ->.
  { rewrite INR_IZR_INZ. f_equal. lia. }
  unfold Py.float_pow.
  destruct (Rlt_dec 0 (cosexpblend_exp_decay (opts sh))); [|lra].
  assert (0 < INR (n - 1))%R as Hn1 by (apply lt_0_INR; lia).
  assert (INR 0 / INR (n - 1) = 0)%R as Hp0 by (simpl INR; field; lra).
  assert (INR (n - 1) / INR (n - 1) = 1)%R as Hp1 by (field; lra).
  destruct (cosine_easing_ends sigma_min sigma_max) as [Hc0 Hc1].
  rewrite cosexpblend_loop_closed. cbn [app].
  rewrite (seq_ends n Hn), imap_cons, imap_app. cbn [imap].
  cbn zeta. unfold compose. rewrite Hp0, Hp1, Hc0, Hc1.
  rewrite length_seq.
  set (K := Rpower (cosexpblend_exp_decay (opts sh)) (1 / INR (n - 1))).
  assert (K ^ (S (n - 2 + 0)) = cosexpblend_exp_decay (opts sh))%R as HK.
  { unfold K.
    replace (S (n - 2 + 0)) with (n - 1)%nat by lia.
    rewrite <- Rpower_pow by apply exp_pos.
    rewrite Rpower_mult.
    replace (1 / INR (n - 1) * INR (n - 1))%R with 1%R by (field; lra).
    by apply Rpower_1. }
  rewrite HK.
  replace (sigma_max + 0 * (sigma_max * K ^ 0 - sigma_max))%R
    with sigma_max by lra.
  replace (sigma_min
           + 1 * (sigma_max * cosexpblend_exp_decay (opts sh) - sigma_min))%R
    with (sigma_max * cosexpblend_exp_decay (opts sh))%R by lra.
  rewrite <- app_comm_cons, <- app_assoc. cbn [app].
  eexists. split; [reflexivity|]. by rewrite length_imap, length_seq.
Qed.

Lemma cosexpblend_scheduler_ends_witness :
  exists mid,
    cosexpblend_scheduler (example_shared "") 3 1 2
    = Ok (2%R
          :: mid ++ [(2 * cosexpblend_exp_decay (opts (example_shared "")))%R;
                     0%R]) /\
    length mid = (3 - 2)%nat.
Proof.
  apply (cosexpblend_scheduler_ends (example_shared "") 3 1 2); [lia|].
  simpl. lra.
Defined.

(** X17: every value of the Laplace schedule before the terminator lies
    between [sigma_min] and [sigma_max], whatever [mu] and [beta] are;
    there are [n] of them, followed by [0.0]. *)
Theorem get_sigmas_laplace_bounds (sh : Shared) (n : nat)
    (sigma_min sigma_max : R) :
  (sigma_min <= sigma_max)%R ->
  exists pre,
    get_sigmas_laplace sh n sigma_min sigma_max = pre ++ [0%R] /\
    length pre = n /\
    Forall (fun v => (sigma_min <= v <= sigma_max)%R) pre.
Proof.
  intros Hle. unfold get_sigmas_laplace. eexists. split; [reflexivity|].
  split; [by rewrite !length_map, linspace_length|].
  apply Forall_map, Forall_map, Forall_forall. intros x _. simpl.
  unfold Py.clamp. split.
  - apply Rmin_glb; [apply Rmax_r|done].
  - apply Rmin_r.
Qed.

Lemma get_sigmas_laplace_bounds_witness :
  exists pre,
    get_sigmas_laplace (example_shared "") 5 0.03 14.6 = pre ++ [0%R] /\
    length pre = 5%nat /\
    Forall (fun v => (0.03 <= v <= 14.6)%R) pre.
Proof.
  apply (get_sigmas_laplace_bounds (example_shared "") 5 0.03 14.6). lra.
Defined.



(** X19: whatever string is configured and whatever [float] accepts, the
    custom generator raises nothing: for every [n] it returns [n] values
    followed by [0.0]. *)
Theorem get_sigmas_ays_custom_total (py_float : string -> option R)
    (sh : Shared) (n : nat) (sigma_min sigma_max : R) :
  exists pre,
    get_sigmas_ays_custom py_float sh n sigma_min sigma_max
    = Ok (pre ++ [0%R]) /\
    length pre = n.
Proof.
  destruct (parse_custom_sigmas py_float (ays_custom_sigmas (opts sh)))
    as [parsed|e] eqn:Hparse.
  - pose proof (parse_custom_sigmas_nonempty _ _ _ Hparse) as Hne.
    destruct (decide (n = length parsed)) as [Heq|Hneq].
    + exists parsed. split; [|done].
      unfold get_sigmas_ays_custom. rewrite Hparse. simpl.
      apply Nat.eqb_eq in Heq. by rewrite Heq.
    + rewrite (get_sigmas_ays_custom_parsed _ _ _ _ _ parsed Hparse Hneq Hne).
      eexists. split; [reflexivity|]. by rewrite length_map, linspace_length.
  - unfold get_sigmas_ays_custom. rewrite Hparse. simpl.
    unfold get_align_your_steps_sigmas.
    apply table_variant_shape. by destruct (is_sdxl sh).
Qed.


